(** * Civic-Track: the issue lifecycle and moderation workflow

    A shallow embedding of the two Express servers of the repository,
    [src/backend/server.js] (token-gated, Cloudinary storage) and
    [src/unnamed/part_000] (ungated, disk storage), over an in-memory model
    of the MongoDB collections they query through Mongoose.

    Conventions.
    - A collection is the list of its documents in natural (insertion)
      order; [find] without [sort] returns them in that order.
    - An ObjectId is a natural number drawn from a supply that only grows,
      so that a later [new issue(...)] gets a larger [_id].
    - The form fields and path parameters the handlers read are strings.
    - Every awaited store call may reject: a tape of booleans, one per
      awaited call in program order, says which ones do ([true] = the call
      throws); an exhausted tape means that the store works. *)

From Stdlib Require Import Ascii.
From stdpp Require Import base decidable option list strings gmap pretty sorting.

Local Open Scope string_scope.
Local Open Scope N_scope.

(** ** Documents *)

(** [models/issues.js] ([src/unnamed/part_001], lines 3-12): every field is
    a [String]; [_id] is the ObjectId Mongoose adds. *)
Record Issue := mkIssue {
  _id : N;
  photo : string;
  location : string;
  emailid : string;
  category : string;
  issue : string;
  description : string;
  date : string;
  status : string
}.

(** Modelled from the spec: [models/user.js] is not among the sources; the
    data model gives a User the fields [email], [name] and [password]. *)
Record User := mkUser {
  email : string;
  name : string;
  password : string
}.

(** [{ ...item._doc, username: ... }]: an issue with its submitter's name. *)
Record NamedIssue := mkNamed {
  doc : Issue;
  username : string
}.

Global Instance Issue_eq_dec : EqDecision Issue.
Proof. solve_decision. Defined.
Global Instance User_eq_dec : EqDecision User.
Proof. solve_decision. Defined.
Global Instance NamedIssue_eq_dec : EqDecision NamedIssue.
Proof. solve_decision. Defined.

(** The three moderation states of the data model. *)
Definition status_set : list string := ["pending"; "accepted"; "rejected"].

(** [{ status }] of an update: the document with its status overwritten. *)
Definition set_status (s : string) (i : Issue) : Issue :=
  mkIssue (_id i) (photo i) (location i) (emailid i) (category i) (issue i)
          (description i) (date i) s.

(** ** The process and its stores *)

Record World := mkWorld {
  issues : list Issue;            (* collection [issues], natural order *)
  users : list User;              (* collection [users], natural order *)
  next_id : N;                    (* ObjectId supply of the process *)
  uploads : gmap string string    (* public/uploads: file name to bytes *)
}.

Definition with_issues (l : list Issue) (w : World) : World :=
  mkWorld l (users w) (next_id w) (uploads w).
Definition with_users (l : list User) (w : World) : World :=
  mkWorld (issues w) l (next_id w) (uploads w).
Definition with_next_id (n : N) (w : World) : World :=
  mkWorld (issues w) (users w) n (uploads w).
Definition with_uploads (d : gmap string string) (w : World) : World :=
  mkWorld (issues w) (users w) (next_id w) d.

(** ** Handlers: state, store faults and [try]/[catch] *)

Definition Tape := list bool.

Inductive result (A : Type) : Type :=
| Ok (a : A)
| Throw.
Arguments Ok {A} a.
Arguments Throw {A}.

Definition M (A : Type) : Type := Tape → World → result A * World * Tape.

Definition ret {A} (a : A) : M A := λ t w, (Ok a, w, t).

Definition bind {A B} (m : M A) (k : A → M B) : M B := λ t w,
  match m t w with
  | (Ok a, w', t') => k a t' w'
  | (Throw, w', t') => (Throw, w', t')
  end.

(** [await op]: one awaited store call; the head of the tape says whether it
    rejects, in which case the store is left as it was. *)
Definition await {A} (op : World → A * World) : M A := λ t w,
  match t with
  | true :: t' => (Throw, w, t')
  | _ => let '(a, w') := op w in (Ok a, w', tail t)
  end.

(** A synchronous step of the process (no store call, cannot reject). *)
Definition sync {A} (op : World → A * World) : M A := λ t w,
  let '(a, w') := op w in (Ok a, w', t).

(** [try { m } catch { h }]. *)
Definition try_catch {A} (m h : M A) : M A := λ t w,
  match m t w with
  | (Ok a, w', t') => (Ok a, w', t')
  | (Throw, w', t') => h t' w'
  end.

Notation "'let!' x ':=' m 'in' k" := (bind m (λ x, k))
  (at level 10, x name, m at level 100, k at level 200, only parsing).

(** [Promise.all(l.map(async item => f item))]: the results in the order of
    [l]; it rejects as soon as one of the calls does. *)
Fixpoint promise_all_map {A B} (f : A → M B) (l : list A) : M (list B) :=
  match l with
  | [] => ret []
  | x :: l' => let! y := f x in
              let! ys := promise_all_map f l' in
              ret (y :: ys)
  end.

(** The response a handler sends and the world it leaves; a rejection nobody
    caught ends in Express's default error page. *)
Inductive Body :=
| JError (error : string)
| JMessage (message : string)
| JIssues (docs : list Issue)
| JNamedIssues (docs : list NamedIssue)
| JUpdated (message : string) (Issue : Issue)
| JCount (count : nat)
| JUsers (docs : list User)
| JValid
| ErrorPage.

Record Response := mkResponse {
  code : N;
  body : Body
}.

Definition json (b : Body) : Response := mkResponse 200 b.

Definition run (h : M Response) (t : Tape) (w : World) : Response * World :=
  match h t w with
  | (Ok r, w', _) => (r, w')
  | (Throw, w', _) => (mkResponse 500 ErrorPage, w')
  end.

(** ** JavaScript values the handlers test *)

(** Truthiness of a value that is a string or [undefined]. *)
Definition truthy (v : option string) : bool :=
  match v with
  | Some s => bool_decide (s ≠ "")
  | None => false
  end.

(** [a || b]. *)
Definition js_or (a b : option string) : option string :=
  if truthy a then a else b.

(** [s.split(" ")]: the pieces of [s] between single spaces. *)
Fixpoint split_space (s : string) : list string :=
  match s with
  | EmptyString => [""]
  | String c s' =>
      if decide (c = " "%char) then "" :: split_space s'
      else match split_space s' with
           | [] => [String c ""]
           | p :: ps => String c p :: ps
           end
  end.

(** ** The collections (Mongoose models [issue] and [user]) *)

(** A filter document over issues: [{}], [{ status }], [{ emailid }] or
    [{ emailid, status }]. *)
Record Query := mkQuery {
  q_emailid : option string;
  q_status : option string
}.

Definition matches (q : Query) (i : Issue) : Prop :=
  from_option (λ e, emailid i = e) True (q_emailid q) ∧
  from_option (λ s, status i = s) True (q_status q).

Global Instance matches_dec q i : Decision (matches q i).
Proof. unfold matches. destruct (q_emailid q), (q_status q); simpl; apply _. Defined.

(** [issue.find(q)]: the matching documents in natural order. *)
Definition issue_find (q : Query) (w : World) : list Issue * World :=
  (filter (matches q) (issues w), w).

(** [.sort({ _id: -1 })]: descending [_id]. *)
Fixpoint insert_desc (x : Issue) (l : list Issue) : list Issue :=
  match l with
  | [] => [x]
  | y :: l' => if decide (_id y ≤ _id x) then x :: l else y :: insert_desc x l'
  end.

Definition sort_desc_id (l : list Issue) : list Issue := foldr insert_desc [] l.

Definition issue_find_sorted (q : Query) (w : World) : list Issue * World :=
  (sort_desc_id (filter (matches q) (issues w)), w).

(** [new issue({...})]: Mongoose gives the document its [_id] when it is
    constructed, before any store call. *)
Definition new_issue (mk : N → Issue) (w : World) : Issue * World :=
  (mk (next_id w), with_next_id (next_id w + 1) w).

(** [doc.save()] of a new document: an insertion at the end. *)
Definition issue_save (i : Issue) (w : World) : unit * World :=
  (tt, with_issues (issues w ++ [i]) w).

(** The first document of [l] with the given [_id], updated by [f]. *)
Fixpoint update_by_id (id : N) (f : Issue → Issue) (l : list Issue)
  : option Issue * list Issue :=
  match l with
  | [] => (None, [])
  | i :: l' =>
      if decide (_id i = id) then (Some (f i), f i :: l')
      else let '(r, l'') := update_by_id id f l' in (r, i :: l'')
  end.

(** [issue.findByIdAndUpdate(id, { status }, { new: true })]: the updated
    document, or [null] when no document has that id. *)
Definition issue_findByIdAndUpdate (id : N) (s : string) (w : World)
  : option Issue * World :=
  let '(r, l) := update_by_id id (set_status s) (issues w) in
  (r, with_issues l w).

(** [issue.deleteMany({ emailid: e })]. *)
Definition issue_deleteMany (e : string) (w : World) : unit * World :=
  (tt, with_issues (filter (λ i, emailid i ≠ e) (issues w)) w).

(** [user.findOne({ email: e })]: the first match, or [null]. *)
Definition user_findOne (e : string) (w : World) : option User * World :=
  (head (filter (λ u, email u = e) (users w)), w).

(** The list without its first element satisfying [P]. *)
Fixpoint remove_first {A} (P : A → Prop) `{!∀ x, Decision (P x)} (l : list A)
  : list A :=
  match l with
  | [] => []
  | x :: l' => if decide (P x) then l' else x :: remove_first P l'
  end.

(** [user.findOneAndDelete({ email: e })]: the deleted document, or [null]. *)
Definition user_findOneAndDelete (e : string) (w : World) : option User * World :=
  (head (filter (λ u, email u = e) (users w)),
   with_users (remove_first (λ u, email u = e) (users w)) w).

(** [user.countDocuments()]. *)
Definition user_countDocuments (w : World) : nat * World :=
  (length (users w), w).

(** ** Requests *)

(** The file part of a multipart submission, as the client sends it. *)
Record FilePart := mkFilePart {
  originalname : string;
  content : string
}.

(** [req.file], as a multer storage engine leaves it. *)
Record MulterFile := mkMulterFile {
  filename : string;
  path : option string;
  url : option string;
  secure_url : option string
}.

(** [req.body] of a submission: the fields the handler reads, and a
    [status] field a caller may add. *)
Record IssueForm := mkForm {
  form_location : string;
  form_emailid : string;
  form_category : string;
  form_issue : string;
  form_description : string;
  form_status : option string
}.

(** The routes of the issue lifecycle and of user administration. The
    static pages, the signup and the two logins are left out: they touch
    neither the issue store nor the gate. A status transition comes in two
    forms, by what Mongoose makes of the path parameter [:id]:
    [PATCH_issue_status] when it casts to an ObjectId, and
    [PATCH_issue_status_uncast] when it is a string that is the text of
    none. *)
Inductive Route :=
| POST_issues (form : IssueForm) (photo : option FilePart)
| GET_issues
| GET_issues_status (s : string)
| GET_issues_user (e : string) (s : option string)
| GET_pending
| GET_issues_accepted
| PATCH_issue_status (id : N) (s : string)
| GET_users_count
| GET_users_search (pattern : option string)
| DELETE_user (e : string)
| GET_admin_verify
| PATCH_issue_status_uncast (raw : string) (s : string).

Record Request := mkRequest {
  route : Route;
  authorization : option string    (* [req.headers.authorization] *)
}.

(** What the servers take from their packages and from the platform. *)
Class Externals := {
  (* [jwt.verify(token, process.env.JWT_SECRET)] returns (it throws
     otherwise) *)
  jwt_verify : string → bool;
  (* the Cloudinary storage engine: [req.file], or the upload is refused *)
  cloudinary_upload : FilePart → option MulterFile;
  (* [new Date().toLocaleDateString()] at the given instant *)
  toLocaleDateString : N → string;
  (* [new RegExp(pattern, "i")]: its test, or a syntax error *)
  regexp_i : string → option (string → bool)
}.

(** ** Handlers the two servers share

    The listing, moderation and user-administration handlers have the same
    body in [src/backend/server.js] and in [src/unnamed/part_000]; the line
    numbers are those of the former. *)

(** Lines 196-202 (and 220-226, 248-254, 281-287): the per-issue lookup of
    the submitter's name. *)
Definition attach_username (item : Issue) : M NamedIssue :=
  let! userInfo := await (user_findOne (emailid item)) in
  ret (mkNamed item
         match userInfo with
         | Some u => name u
         | None => "Anonymous User"
         end).

(** The body all four aggregated views have: a sorted query, the names, the
    list as JSON; any rejection is a 500 with the view's message. *)
Definition aggregated_view (q : Query) (failure : string) : M Response :=
  try_catch
    (let! found := await (issue_find_sorted q) in
     let! issuesWithNames := promise_all_map attach_username found in
     ret (json (JNamedIssues issuesWithNames)))
    (ret (mkResponse 500 (JError failure))).

(** GET /api/issues, lines 190-210. *)
Definition get_issues : M Response :=
  aggregated_view (mkQuery None None) "Failed to fetch issues".

(** GET /api/issues/status/:status, lines 213-234. *)
Definition get_issues_status (s : string) : M Response :=
  aggregated_view (mkQuery None (Some s)) "Failed to fetch filtered issues".

(** GET /api/issues/user/:emailid, lines 237-262:
    [if (status) filter.status = status]. *)
Definition get_issues_user (e : string) (s : option string) : M Response :=
  aggregated_view (mkQuery (Some e) (if truthy s then s else None))
                  "Failed to fetch user issues".

(** GET /api/issues/accepted, lines 274-295. *)
Definition get_issues_accepted : M Response :=
  aggregated_view (mkQuery None (Some "accepted"))
                  "Failed to fetch accepted issues".

(** GET /pending, lines 265-272: no sort, no names. *)
Definition get_pending : M Response :=
  try_catch
    (let! found := await (issue_find (mkQuery None (Some "pending"))) in
     ret (json (JIssues found)))
    (ret (mkResponse 500 (JMessage "Error fetching pending issues"))).

(** PATCH /api/issues/:id/status, lines 300-315. [id] is [req.params.id]
    as Mongoose casts it: an ObjectId, or none when the string is not the
    text of one; [findByIdAndUpdate] then rejects with a cast error before
    any store call, inside the [try]. *)
Definition patch_issue_status (id : option N) (s : string) : M Response :=
  try_catch
    (let! updated :=
       match id with
       | Some oid => await (issue_findByIdAndUpdate oid s)
       | None => λ t w, (Throw, w, t)
       end in
     match updated with
     | None => ret (mkResponse 404 (JMessage "Issue not found"))
     | Some i => ret (json (JUpdated ("Issue " +:+ s) i))
     end)
    (ret (mkResponse 500 (JMessage "Failed to update issue status"))).

(** GET /api/users/count, lines 318-326. *)
Definition get_users_count : M Response :=
  try_catch
    (let! count := await user_countDocuments in
     ret (json (JCount count)))
    (ret (mkResponse 500 (JMessage "Error fetching user count"))).

(** [user.find({ name: regex })]. *)
Definition user_find_name (test : string → bool) (w : World) : list User * World :=
  (filter (λ u, test (name u) = true) (users w), w).

(** GET /api/users/search, lines 329-342; a pattern that is no regular
    expression throws inside the [try]. *)
Definition get_users_search `{!Externals} (pattern : option string) : M Response :=
  try_catch
    (if truthy pattern then
       match regexp_i (default "" pattern) with
       | None => λ t w, (Throw, w, t)
       | Some test =>
           let! usersFound := await (user_find_name test) in
           ret (json (JUsers usersFound))
       end
     else ret (mkResponse 400 (JMessage "Name required")))
    (ret (mkResponse 500 (JMessage "Error searching users"))).

(** DELETE /api/users/:email, lines 345-363: the user first, then every
    issue of that email; two store calls, not one transaction. *)
Definition delete_user (e : string) : M Response :=
  try_catch
    (let! deletedUser := await (user_findOneAndDelete e) in
     match deletedUser with
     | None => ret (mkResponse 404 (JMessage "User not found"))
     | Some _ =>
         let! _ := await (issue_deleteMany e) in
         ret (json (JMessage "User and all related issues deleted successfully"))
     end)
    (ret (mkResponse 500 (JMessage "Failed to delete user and issues"))).

(** ** [src/backend/server.js]: Cloudinary storage and the admin gate *)

(** [authHeader.split(" ")[1]] (line 369). *)
Definition bearer (h : string) : option string := split_space h !! 1%nat.

Module Backend.
Section Server.
Context `{!Externals}.

(** Modelled from the spec: [middleware/authadmin.js], which exports
    [verifyAdmin], is not among the sources. The spec (4.6) has it extract
    a bearer token from the [Authorization] header, fail with
    MissingCredentialsError (401) if absent and with InvalidTokenError (403)
    if the signature or expiry check fails, and let the request through to
    the handler only on successful verification. *)
Definition verifyAdmin (req : Request) (next : M Response) : M Response :=
  match authorization req ≫= bearer with
  | None => ret (mkResponse 401 (JMessage "No token provided"))
  | Some token =>
      if jwt_verify token then next
      else ret (mkResponse 403 (JMessage "Invalid or expired token"))
  end.

(** [upload.single("photo")] over [CloudinaryStorage] (lines 60-72): no
    file part leaves [req.file] undefined; a refused upload goes to
    Express's error handling and the route handler does not run. *)
Definition upload_single (photo : option FilePart)
    (next : option MulterFile → M Response) : M Response :=
  match photo with
  | None => next None
  | Some p =>
      match cloudinary_upload p with
      | Some f => next (Some f)
      | None => ret (mkResponse 500 ErrorPage)
      end
  end.

(** POST /api/issues, lines 155-188. *)
Definition post_issues (now : N) (form : IssueForm) (file : option MulterFile)
  : M Response :=
  try_catch
    (match file with
     | None => ret (mkResponse 400 (JError "no file uploaded"))
     | Some f =>
         let imageUrl := js_or (js_or (path f) (url f)) (secure_url f) in
         if truthy imageUrl then
           let! newIssue := sync (new_issue (λ id,
             mkIssue id (default "" imageUrl) (form_location form)
                     (form_emailid form) (form_category form) (form_issue form)
                     (form_description form) (toLocaleDateString now)
                     "pending")) in
           let! _ := await (issue_save newIssue) in
           ret (mkResponse 201 (JMessage "Issue submitted successfully!"))
         else ret (mkResponse 500 (JError "Cloudinary upload failed"))
     end)
    (ret (mkResponse 500 (JError "Internal Server Error"))).

(** GET /api/admin/verify, lines 365-376 (behind [verifyAdmin]). *)
Definition get_admin_verify (req : Request) : M Response :=
  let authHeader := authorization req in
  if truthy authHeader then
    if from_option jwt_verify false (bearer (default "" authHeader))
    then ret (json JValid)
    else ret (mkResponse 403 (JMessage "Invalid or expired token"))
  else ret (mkResponse 401 (JMessage "No token provided")).

(** The routes of the file, each with the middleware it is registered
    with. *)
Definition app (now : N) (req : Request) : M Response :=
  match route req with
  | POST_issues form photo => upload_single photo (post_issues now form)
  | GET_issues => verifyAdmin req get_issues
  | GET_issues_status s => get_issues_status s
  | GET_issues_user e s => get_issues_user e s
  | GET_pending => get_pending
  | GET_issues_accepted => get_issues_accepted
  | PATCH_issue_status id s => verifyAdmin req (patch_issue_status (Some id) s)
  | GET_users_count => verifyAdmin req get_users_count
  | GET_users_search pattern => verifyAdmin req (get_users_search pattern)
  | DELETE_user e => verifyAdmin req (delete_user e)
  | GET_admin_verify => verifyAdmin req (get_admin_verify req)
  | PATCH_issue_status_uncast _ s => verifyAdmin req (patch_issue_status None s)
  end.

End Server.
End Backend.

(** ** [src/unnamed/part_000]: disk storage, no gate *)

(** Node's [path.extname] (POSIX): the scan of [path] from its end, index
    [n - 1] down to 0, with the loop's five variables. *)
Record ExtScan := mkExtScan {
  startDot : option nat;
  startPart : nat;
  end_ : option nat;
  matchedSlash : bool;
  preDotState : Z
}.

Fixpoint extname_scan (p : string) (n : nat) (st : ExtScan) : ExtScan :=
  match n with
  | O => st
  | S i =>
      match String.get i p with
      | None => st
      | Some c =>
          if decide (c = "/"%char) then
            if matchedSlash st then extname_scan p i st
            else mkExtScan (startDot st) (S i) (end_ st) (matchedSlash st)
                           (preDotState st)
          else
            let st1 :=
              match end_ st with
              | None => mkExtScan (startDot st) (startPart st) (Some (S i))
                                  false (preDotState st)
              | Some _ => st
              end in
            let st2 :=
              if decide (c = "."%char) then
                match startDot st1 with
                | None => mkExtScan (Some i) (startPart st1) (end_ st1)
                                    (matchedSlash st1) (preDotState st1)
                | Some _ => mkExtScan (startDot st1) (startPart st1) (end_ st1)
                                      (matchedSlash st1) 1%Z
                end
              else
                match startDot st1 with
                | None => st1
                | Some _ => mkExtScan (startDot st1) (startPart st1) (end_ st1)
                                      (matchedSlash st1) (-1)%Z
                end in
            extname_scan p i st2
      end
  end.

Definition extname (p : string) : string :=
  let st := extname_scan p (String.length p) (mkExtScan None 0 None true 0%Z) in
  match startDot st, end_ st with
  | Some sd, Some e =>
      if bool_decide (preDotState st = 0%Z)
         || (bool_decide (preDotState st = 1%Z) && bool_decide (S sd = e)
             && bool_decide (sd = S (startPart st)))
      then ""
      else String.substring sd (e - sd) p
  | _, _ => ""
  end.

Module Unnamed.
Section Server.
Context `{!Externals}.

(** [multer.diskStorage], lines 38-41. *)
Definition destination : string := "public/uploads".

Definition diskStorage_filename (now : N) (file : FilePart) : string :=
  pretty now +:+ extname (originalname file).

(** [upload.single("photo")] over the disk storage: the bytes are written
    to [destination/filename], replacing a file of that name. *)
Definition upload_single (now : N) (photo : option FilePart)
    (next : option MulterFile → M Response) : M Response :=
  match photo with
  | None => next None
  | Some p =>
      let stored := diskStorage_filename now p in
      let! _ := sync (λ w,
        (tt, with_uploads (<[stored := content p]> (uploads w)) w)) in
      next (Some (mkMulterFile stored (Some (destination +:+ "/" +:+ stored))
                               None None))
  end.

(** POST /api/issues, lines 103-125. *)
Definition post_issues (now : N) (form : IssueForm) (file : option MulterFile)
  : M Response :=
  try_catch
    (match file with
     | None => ret (mkResponse 400 (JError "no file uploaded"))
     | Some f =>
         let! newIssue := sync (new_issue (λ id,
           mkIssue id ("/uploads/" +:+ filename f) (form_location form)
                   (form_emailid form) (form_category form) (form_issue form)
                   (form_description form) (toLocaleDateString now)
                   "pending")) in
         let! _ := await (issue_save newIssue) in
         ret (mkResponse 201 (JMessage "Issue submitted successfully!"))
     end)
    (ret (mkResponse 500 (JError "Internal Server Error"))).

(** The routes of the file: none has a middleware but the upload, and there
    is no /api/admin/verify. *)
Definition app (now : N) (req : Request) : M Response :=
  match route req with
  | POST_issues form photo => upload_single now photo (post_issues now form)
  | GET_issues => get_issues
  | GET_issues_status s => get_issues_status s
  | GET_issues_user e s => get_issues_user e s
  | GET_pending => get_pending
  | GET_issues_accepted => get_issues_accepted
  | PATCH_issue_status id s => patch_issue_status (Some id) s
  | GET_users_count => get_users_count
  | GET_users_search pattern => get_users_search pattern
  | DELETE_user e => delete_user e
  | GET_admin_verify => ret (mkResponse 404 ErrorPage)
  | PATCH_issue_status_uncast _ s => patch_issue_status None s
  end.

End Server.
End Unnamed.

(** ** The two servers side by side *)

Inductive Server := backend_server | unnamed_server.

Definition app `{!Externals} (srv : Server) : N → Request → M Response :=
  match srv with
  | backend_server => Backend.app
  | unnamed_server => Unnamed.app
  end.

(** One request served: the response and the world after it. *)
Definition serve `{!Externals} (srv : Server) (now : N) (t : Tape)
    (req : Request) (w : World) : Response * World :=
  run (app srv now req) t w.

(** A platform to run the servers on: tokens are valid when they are the
    word [good], Cloudinary answers with a URL under its folder, dates are
    the day count since the epoch, and a search pattern matches the names
    equal to it. *)
Definition demo : Externals := {|
  jwt_verify := λ token, bool_decide (token = "good");
  cloudinary_upload := λ p,
    Some (mkMulterFile (originalname p)
            (Some ("https://res.cloudinary.com/CivicTrack_uploads/" +:+ originalname p))
            None None);
  toLocaleDateString := λ now, pretty (now `div` 86400000);
  regexp_i := λ pattern, Some (λ s, bool_decide (s = pattern))
|}.

Definition empty_world : World := mkWorld [] [] 0 ∅.

(** ** Properties of worlds, routes and listings *)

(** The status invariant of the data model, over a whole issue store. *)
Definition status_invariant (w : World) : Prop :=
  Forall (λ i, status i ∈ status_set) (issues w).

(** No two documents of the issue collection share their [_id] (the unique
    index MongoDB keeps on it). *)
Definition distinct_ids (w : World) : Prop :=
  NoDup (_id <$> issues w).

(** The id supply is ahead of every stored id. *)
Definition supply_ahead (w : World) : Prop :=
  Forall (λ i, _id i < next_id w) (issues w).

(** Most recent first: every entry has a strictly smaller id than the
    entries before it. *)
Definition strictly_descending (ids : list N) : Prop :=
  ∀ (i j : nat) (a b : N), (i < j)%nat → ids !! i = Some a → ids !! j = Some b → b < a.

(** The routes [src/backend/server.js] registers behind [verifyAdmin]. *)
Definition gated (r : Route) : bool :=
  match r with
  | GET_issues | PATCH_issue_status _ _ | GET_users_count | GET_users_search _
  | DELETE_user _ | GET_admin_verify | PATCH_issue_status_uncast _ _ => true
  | _ => false
  end.

(** The request carries a bearer token that verifies. *)
Definition verified `{!Externals} (req : Request) : bool :=
  from_option jwt_verify false (authorization req ≫= bearer).

(** The request reaches the route's handler on the given server. *)
Definition admitted `{!Externals} (srv : Server) (req : Request) : Prop :=
  srv = unnamed_server ∨ gated (route req) = false ∨ verified req = true.

(** The four aggregated read views. *)
Definition aggregated (r : Route) : bool :=
  match r with
  | GET_issues | GET_issues_status _ | GET_issues_user _ _ | GET_issues_accepted => true
  | _ => false
  end.

(** The name the aggregation attaches to an issue, given the users. *)
Definition resolve_username (us : list User) (i : Issue) : string :=
  match head (filter (λ u, email u = emailid i) us) with
  | Some u => name u
  | None => "Anonymous User"
  end.

(** ** A scenario: two submissions in the same millisecond, one account *)

Definition main_st : IssueForm :=
  mkForm "Main St" "a@x.com" "Pothole" "road damage" "..." (Some "accepted").

Definition photo_a : FilePart := mkFilePart "a.png" "first picture".
Definition photo_b : FilePart := mkFilePart "b.png" "second picture".

Definition submit (p : FilePart) : Request :=
  mkRequest (POST_issues main_st (Some p)) None.

Definition after_one : World :=
  (@serve demo unnamed_server 1700000000000 [] (submit photo_a) empty_world).2.

Definition after_two : World :=
  (@serve demo unnamed_server 1700000000000 [] (submit photo_b) after_one).2.

Definition alice : User := mkUser "a@x.com" "Alice" "secret".
Definition bob : User := mkUser "b@x.com" "Bob" "hunter2".

Definition town : World := with_users [bob; alice] after_two.

(** The same issues, with Bob's account only. *)
Definition village : World := with_users [bob] after_two.

(** A string without a dot, and a string that is empty or starts with
    one: the two halves of a stored file name. *)
Fixpoint dotless (s : string) : Prop :=
  match s with
  | EmptyString => True
  | String c s' => c ≠ "."%char ∧ dotless s'
  end.

Definition dotted (s : string) : Prop :=
  s = "" ∨ ∃ s', s = String "."%char s'.

(** What the scan of [extname] knows of its variables with [n] characters
    left to read: the extension ends after the characters still to read,
    and starts, before its end, at a dot. *)
Definition scan_invariant (p : string) (n : nat) (st : ExtScan) : Prop :=
  (∀ e, end_ st = Some e → (n ≤ e)%nat)
  ∧ (∀ sd, startDot st = Some sd →
       String.get sd p = Some "."%char
       ∧ ∃ e, end_ st = Some e ∧ (sd < e)%nat).

(** The filter document each aggregated view queries with. *)
Definition view_query (r : Route) : Query :=
  match r with
  | GET_issues_status s => mkQuery None (Some s)
  | GET_issues_user e s => mkQuery (Some e) (if truthy s then s else None)
  | GET_issues_accepted => mkQuery None (Some "accepted")
  | _ => mkQuery None None
  end.

(** What one request may do to the issue store and the id supply: nothing,
    one creation (in [pending], at the end), one status overwrite, or the
    purge of one email's issues. *)
Inductive effect (r : Route) (w w' : World) : Prop :=
| effect_none :
    issues w' = issues w → next_id w ≤ next_id w' → effect r w w'
| effect_created form photo i :
    r = POST_issues form photo →
    issues w' = (issues w ++ [i])%list → status i = "pending" →
    _id i = next_id w → next_id w' = next_id w + 1 → effect r w w'
| effect_updated id s :
    r = PATCH_issue_status id s →
    issues w' = (update_by_id id (set_status s) (issues w)).2 →
    next_id w' = next_id w → effect r w w'
| effect_purged e :
    r = DELETE_user e →
    issues w' = filter (λ i, emailid i ≠ e) (issues w) →
    next_id w' = next_id w → effect r w w'.

(** A computation that leaves the world as it found it, on every tape. *)
Definition read_only {A} (m : M A) : Prop := ∀ t w, (m t w).1.2 = w.

(** ** Accounts: signup and the two logins

    [src/backend/server.js] lines 102-153, [src/unnamed/part_000] lines
    60-101. Signup and user login have the same body in both files. *)

(** [newUser.save()]: an insertion at the end of the user collection. *)
Definition user_save (u : User) (w : World) : unit * World :=
  (tt, with_users (users w ++ [u]) w).

(** POST /api/users/signup, lines 102-111. *)
Definition post_users_signup (u : User) : M Response :=
  try_catch
    (let! _ := await (user_save u) in
     ret (mkResponse 201 (JMessage "User created successfully")))
    (ret (mkResponse 500 (JError "Internal Server Error"))).

(** What Mongoose makes of a value of [req.body] put in a filter on a
    [String] path: an equality for a string; a test of the stored value for
    an object of query operators (as [{ "$ne": "x" }]) and for the other
    values it accepts; a cast error for a value it accepts as neither. A
    string is read as the equality with it. *)
Inductive Condition :=
| Equals (s : string)
| Operator (test : string → bool)
| Uncastable.

Coercion Equals : string >-> Condition.

Definition holds (c : Condition) (v : string) : Prop :=
  match c with
  | Equals s => v = s
  | Operator test => test v = true
  | Uncastable => False
  end.

Global Instance holds_dec c v : Decision (holds c v).
Proof. destruct c; simpl; apply _. Defined.

Definition castable (c : Condition) : bool :=
  match c with
  | Uncastable => false
  | _ => true
  end.

(** [user.findOne({ email, password })]. *)
Definition user_findOne_credentials (e p : Condition) (w : World)
  : option User * World :=
  (head (filter (λ u, holds e (email u) ∧ holds p (password u)) (users w)), w).

(** POST /api/users/login, lines 113-129; [email] and [password] are
    whatever the JSON body holds, and a cast error is thrown before the
    store is called. *)
Definition post_users_login (e p : Condition) : M Response :=
  try_catch
    (let! existingUser :=
       if castable e && castable p
       then await (user_findOne_credentials e p)
       else λ t w, (Throw, w, t) in
     match existingUser with
     | Some _ => ret (json (JMessage "Login successful"))
     | None => ret (mkResponse 401 (JError "Invalid credentials"))
     end)
    (ret (mkResponse 500 (JError "Internal Server Error"))).








(** ** Further properties of routes, tapes and strings *)

(** The routes that only read: every GET. *)
Definition reads (r : Route) : bool :=
  match r with
  | POST_issues _ _ | PATCH_issue_status _ _ | DELETE_user _
  | PATCH_issue_status_uncast _ _ => false
  | _ => true
  end.

(** One of the first [n] store calls of the tape rejects. *)
Definition rejects_within (n : nat) (t : Tape) : bool :=
  existsb id (take n t).

(** The message each aggregated view sends with a 500. *)
Definition view_failure (r : Route) : string :=
  match r with
  | GET_issues_status _ => "Failed to fetch filtered issues"
  | GET_issues_user _ _ => "Failed to fetch user issues"
  | GET_issues_accepted => "Failed to fetch accepted issues"
  | _ => "Failed to fetch issues"
  end.

(** The issues an aggregated view lists, with their names. *)
Definition view_of (r : Route) (w : World) : list NamedIssue :=
  (λ i, mkNamed i (resolve_username (users w) i))
    <$> sort_desc_id (filter (matches (view_query r)) (issues w)).

(** A string without a space. *)
Fixpoint spaceless (s : string) : Prop :=
  match s with
  | EmptyString => True
  | String c s' => c ≠ " "%char ∧ spaceless s'
  end.

(** The url the Cloudinary handler stores: the first truthy one of the
    three fields of [req.file]. *)
Definition chosen_url (f : MulterFile) : option string :=
  if truthy (path f) then path f
  else if truthy (url f) then url f
  else secure_url f.

(** Membership of a status code in a list of codes. *)
Ltac in_codes :=
  simpl; rewrite !elem_of_cons; repeat (first [by left | right]).

(** ** Lemmas on the handler monad *)

Section MonadLemmas.
Context {A B : Type}.

Lemma read_only_ret (a : A) : read_only (ret a).
Proof. done. Qed.

Lemma read_only_await (f : World → A) : read_only (await (λ w, (f w, w))).
Proof. intros [|[] t] w; done. Qed.

Lemma read_only_try_catch (m h : M A) :
  read_only m → read_only h → read_only (try_catch m h).
Proof.
  intros Hm Hh t w. unfold try_catch. specialize (Hm t w).
  destruct (m t w) as [[[a|] w'] t']; simpl in *; subst; [done|apply Hh].
Qed.

End MonadLemmas.

Lemma read_only_bind {A B} (m : M A) (k : A → M B) :
  read_only m → (∀ a, read_only (k a)) → read_only (bind m k).
Proof.
  intros Hm Hk t w. unfold bind. specialize (Hm t w).
  destruct (m t w) as [[[a|] w'] t']; simpl in *; subst; [apply Hk|done].
Qed.

Lemma read_only_promise_all_map {A B} (f : A → M B) (l : list A) :
  (∀ x, read_only (f x)) → read_only (promise_all_map f l).
Proof.
  intros Hf. induction l as [|x l IH]; simpl; [apply read_only_ret|].
  apply read_only_bind; [apply Hf|]. intros y.
  apply read_only_bind; [apply IH|]. intros ys. apply read_only_ret.
Qed.

Lemma read_only_run (h : M Response) t w : read_only h → (run h t w).2 = w.
Proof.
  intros Hh. unfold run. specialize (Hh t w).
  by destruct (h t w) as [[[r|] w'] t'].
Qed.

Lemma read_only_attach_username i : read_only (attach_username i).
Proof.
  apply read_only_bind; [apply (read_only_await (λ w, (user_findOne (emailid i) w).1))|].
  intros u. apply read_only_ret.
Qed.

Lemma read_only_aggregated_view q failure : read_only (aggregated_view q failure).
Proof.
  apply read_only_try_catch; [|apply read_only_ret].
  apply read_only_bind;
    [apply (read_only_await (λ w, sort_desc_id (filter (matches q) (issues w))))|].
  intros found. apply read_only_bind.
  - apply read_only_promise_all_map, read_only_attach_username.
  - intros l. apply read_only_ret.
Qed.

Lemma read_only_get_pending : read_only get_pending.
Proof.
  apply read_only_try_catch; [|apply read_only_ret].
  apply read_only_bind;
    [apply (read_only_await (λ w, filter (matches (mkQuery None (Some "pending"))) (issues w)))|].
  intros found. apply read_only_ret.
Qed.

Lemma read_only_get_users_count : read_only get_users_count.
Proof.
  apply read_only_try_catch; [|apply read_only_ret].
  apply read_only_bind; [apply (read_only_await (λ w, length (users w)))|].
  intros n. apply read_only_ret.
Qed.

Lemma read_only_get_users_search `{!Externals} pattern :
  read_only (get_users_search pattern).
Proof.
  apply read_only_try_catch; [|apply read_only_ret].
  unfold get_users_search. destruct (truthy pattern); [|apply read_only_ret].
  destruct (regexp_i _) as [test|]; [|done].
  apply read_only_bind;
    [apply (read_only_await (λ w, filter (λ u, test (name u) = true) (users w)))|].
  intros found. apply read_only_ret.
Qed.

(** ** The descending sort *)

Lemma insert_desc_perm x l : insert_desc x l ≡ₚ x :: l.
Proof.
  induction l as [|y l IH]; simpl; [done|].
  case_decide; [done|]. rewrite IH. apply Permutation_swap.
Qed.

Lemma sort_desc_id_perm l : sort_desc_id l ≡ₚ l.
Proof.
  induction l as [|x l IH]; simpl; [done|].
  by rewrite insert_desc_perm, IH.
Qed.

Lemma insert_desc_sorted x l :
  StronglySorted (λ a b, _id b ≤ _id a) l →
  StronglySorted (λ a b, _id b ≤ _id a) (insert_desc x l).
Proof.
  induction 1 as [|y l Hl IH Hy]; simpl; [by repeat constructor|].
  case_decide as Hxy.
  - constructor; [by constructor|]. constructor; [done|].
    eapply Forall_impl; [exact Hy|]. simpl. intros z Hz. lia.
  - constructor; [done|].
    rewrite insert_desc_perm. constructor; [lia|done].
Qed.

Lemma sort_desc_id_sorted l :
  StronglySorted (λ a b, _id b ≤ _id a) (sort_desc_id l).
Proof.
  induction l as [|x l IH]; simpl; [constructor|by apply insert_desc_sorted].
Qed.

Lemma sorted_distinct_strict l :
  StronglySorted (λ a b, _id b ≤ _id a) l → NoDup (_id <$> l) →
  StronglySorted (λ a b, _id b < _id a) l.
Proof.
  induction 1 as [|x l Hl IH Hx]; csimpl; [constructor|].
  rewrite NoDup_cons. intros [Hnotin Hnd]. constructor; [by apply IH|].
  rewrite Forall_forall in Hx |- *. intros y Hy.
  assert (_id y ≠ _id x) as Hne.
  { intros Heq. apply Hnotin. rewrite <- Heq. by apply list_elem_of_fmap_2. }
  specialize (Hx y Hy). simpl in Hx. lia.
Qed.

Lemma strongly_sorted_descending (ids : list N) :
  StronglySorted (λ a b, b < a) ids → strictly_descending ids.
Proof.
  induction 1 as [|x l Hl IH Hx]; intros i j a b Hij Hi Hj.
  { by rewrite lookup_nil in Hi. }
  destruct j as [|j]; [lia|]. simpl in Hj.
  destruct i as [|i]; simpl in Hi.
  - simplify_eq. rewrite Forall_forall in Hx.
    apply Hx. by eapply list_elem_of_lookup_2.
  - eapply (IH i j); [lia|done..].
Qed.

Lemma sort_desc_id_descending l :
  NoDup (_id <$> l) → strictly_descending (_id <$> sort_desc_id l).
Proof.
  intros Hnd. apply strongly_sorted_descending.
  apply (StronglySorted_fmap _ (λ a b : Issue, _id b < _id a)); [done|].
  apply sorted_distinct_strict; [apply sort_desc_id_sorted|].
  by rewrite sort_desc_id_perm.
Qed.

Lemma distinct_ids_filter (P : Issue → Prop) `{!∀ i, Decision (P i)} l :
  NoDup (_id <$> l) → NoDup (_id <$> filter P l).
Proof.
  intros Hnd. eapply sublist_NoDup; [exact Hnd|].
  apply fmap_sublist, sublist_filter.
Qed.

(** ** The handlers on a store that works (empty tape) *)

Lemma promise_all_map_attach l w :
  promise_all_map attach_username l [] w
  = (Ok ((λ i, mkNamed i (resolve_username (users w) i)) <$> l), w, []).
Proof.
  induction l as [|i l IH]; [done|].
  simpl. unfold bind at 1. simpl. unfold bind at 1. by rewrite IH.
Qed.

Lemma aggregated_view_works q failure w :
  run (aggregated_view q failure) [] w
  = (json (JNamedIssues ((λ i, mkNamed i (resolve_username (users w) i))
                           <$> sort_desc_id (filter (matches q) (issues w)))), w).
Proof.
  unfold run, aggregated_view, try_catch, bind. simpl.
  by rewrite promise_all_map_attach.
Qed.

(** ** The gate *)

Section Gate.
Context `{!Externals}.

Lemma verifyAdmin_verified req h :
  verified req = true → Backend.verifyAdmin req h = h.
Proof.
  unfold verified, Backend.verifyAdmin.
  destruct (authorization req ≫= bearer) as [token|]; simpl; [|done].
  by intros ->.
Qed.

Lemma verifyAdmin_unverified req h :
  verified req = false →
  Backend.verifyAdmin req h
  = ret (match authorization req ≫= bearer with
         | None => mkResponse 401 (JMessage "No token provided")
         | Some _ => mkResponse 403 (JMessage "Invalid or expired token")
         end).
Proof.
  unfold verified, Backend.verifyAdmin.
  destruct (authorization req ≫= bearer) as [token|]; simpl; [|done].
  by intros ->.
Qed.

(** Where the request is admitted, both servers run the same handler. *)
Lemma admitted_aggregated srv now req :
  aggregated (route req) = true → admitted srv req →
  app srv now req
  = aggregated_view (view_query (route req))
      match route req with
      | GET_issues_status _ => "Failed to fetch filtered issues"
      | GET_issues_user _ _ => "Failed to fetch user issues"
      | GET_issues_accepted => "Failed to fetch accepted issues"
      | _ => "Failed to fetch issues"
      end.
Proof.
  intros Hagg Hadm. destruct srv; unfold app, Backend.app, Unnamed.app;
    destruct (route req) eqn:Hr; try done.
  destruct Hadm as [?|[Hg|Hv]]; [done| |by apply verifyAdmin_verified].
  by rewrite Hr in Hg.
Qed.

Lemma admitted_patch srv now req id s :
  route req = PATCH_issue_status id s → admitted srv req →
  app srv now req = patch_issue_status (Some id) s.
Proof.
  intros Hr Hadm. destruct srv; unfold app, Backend.app, Unnamed.app;
    rewrite Hr; [|done].
  destruct Hadm as [?|[Hg|Hv]]; [done| |by apply verifyAdmin_verified].
  by rewrite Hr in Hg.
Qed.

Lemma admitted_delete srv now req e :
  route req = DELETE_user e → admitted srv req →
  app srv now req = delete_user e.
Proof.
  intros Hr Hadm. destruct srv; unfold app, Backend.app, Unnamed.app;
    rewrite Hr; [|done].
  destruct Hadm as [?|[Hg|Hv]]; [done| |by apply verifyAdmin_verified].
  by rewrite Hr in Hg.
Qed.

End Gate.

(** ** What a request can do to the issue store, on every tape *)

Section Effects.
Context `{!Externals}.

Lemma read_only_effect r (h : M Response) t w :
  read_only h → effect r w (run h t w).2.
Proof. intros Hh. rewrite read_only_run by done. by apply effect_none. Qed.

Lemma ret_effect r resp t w : effect r w (run (ret resp) t w).2.
Proof. by apply effect_none. Qed.

Lemma backend_post_effect now form photo file t w :
  effect (POST_issues form photo) w (run (Backend.post_issues now form file) t w).2.
Proof.
  unfold Backend.post_issues, run, try_catch, bind, sync, await, new_issue,
    issue_save.
  destruct file as [f|]; simpl; [|by apply effect_none].
  destruct (truthy _); simpl; [|by apply effect_none].
  destruct t as [|[] t]; simpl.
  - by eapply effect_created.
  - apply effect_none; simpl; [done|lia].
  - by eapply effect_created.
Qed.

Lemma unnamed_post_effect now form photo file t w :
  effect (POST_issues form photo) w (run (Unnamed.post_issues now form file) t w).2.
Proof.
  unfold Unnamed.post_issues, run, try_catch, bind, sync, await, new_issue,
    issue_save.
  destruct file as [f|]; simpl; [|by apply effect_none].
  destruct t as [|[] t]; simpl.
  - by eapply effect_created.
  - apply effect_none; simpl; [done|lia].
  - by eapply effect_created.
Qed.

Lemma patch_effect id s t w :
  effect (PATCH_issue_status id s) w (run (patch_issue_status (Some id) s) t w).2.
Proof.
  unfold patch_issue_status, run, try_catch, bind, await,
    issue_findByIdAndUpdate.
  destruct (update_by_id id (set_status s) (issues w)) as [r l] eqn:Hup.
  assert (l = (update_by_id id (set_status s) (issues w)).2) as Hl
    by (by rewrite Hup).
  destruct t as [|[] t]; simpl; try (by apply effect_none);
    destruct r; simpl; by eapply effect_updated.
Qed.

Lemma delete_effect e t w :
  effect (DELETE_user e) w (run (delete_user e) t w).2.
Proof.
  unfold delete_user, run, try_catch, bind, await, user_findOneAndDelete,
    issue_deleteMany.
  destruct (head (filter (λ u, email u = e) (users w))) as [u|] eqn:Hu;
    destruct t as [|[] [|[] t]]; simpl; rewrite ?Hu; simpl;
    try (by apply effect_none); by eapply effect_purged.
Qed.

(** Every request, on either server and on every tape, has one of the four
    effects its route allows. *)
Lemma serve_effect srv now t req w :
  effect (route req) w (serve srv now t req w).2.
Proof.
  unfold serve.
  assert (∀ h, effect (route req) w (run h t w).2 →
               effect (route req) w (run (Backend.verifyAdmin req h) t w).2)
    as Hgate.
  { intros h Hh. destruct (verified req) eqn:Hv.
    - by rewrite verifyAdmin_verified.
    - rewrite verifyAdmin_unverified by done. apply ret_effect. }
  destruct srv; unfold app, Backend.app, Unnamed.app;
    destruct (route req) as [form photo| |s|e s| | |id s| |pattern|e| |raw s];
    try apply Hgate;
    try (apply read_only_effect;
         first [ apply read_only_aggregated_view | apply read_only_get_pending
               | apply read_only_get_users_count
               | apply read_only_get_users_search | apply read_only_ret ]);
    try apply patch_effect; try apply delete_effect;
    try (apply read_only_effect; by intros ? ?).
  - unfold Backend.upload_single. destruct photo as [p|];
      [|apply backend_post_effect].
    destruct (cloudinary_upload p); [apply backend_post_effect|apply ret_effect].
  - apply read_only_effect. unfold Backend.get_admin_verify.
    destruct (truthy _); [|apply read_only_ret].
    destruct (from_option _ _ _); apply read_only_ret.
  - unfold Unnamed.upload_single. destruct photo as [p|];
      [|apply unnamed_post_effect].
    pose proof (unnamed_post_effect now form (Some p)
      (Some (mkMulterFile (Unnamed.diskStorage_filename now p)
         (Some (Unnamed.destination +:+ "/" +:+ Unnamed.diskStorage_filename now p))
         None None)) t
      (with_uploads (<[Unnamed.diskStorage_filename now p := content p]> (uploads w)) w))
      as Heff.
    unfold run, bind, sync in *. simpl in *.
    destruct (Unnamed.post_issues _ _ _ _ _) as [[[r|] w'] t']; simpl in *;
      (destruct Heff as [?|??? Heq|?? Heq|? Heq];
       [by apply effect_none|by eapply effect_created|done|done]).
Qed.

End Effects.

(** ** Submission *)

Section Submission.
Context `{!Externals}.

(** C1. A submission that is answered 201 had a file attached and added
    exactly one Issue to the store, at its end, with the fresh id, the
    caller's email and status [pending]: whatever [status] the form
    carried, on either server, and whatever the store calls did. *)
Theorem submission_lands_pending srv now t auth form photo w :
  code (serve srv now t (mkRequest (POST_issues form photo) auth) w).1 = 201 →
  ∃ i, issues (serve srv now t (mkRequest (POST_issues form photo) auth) w).2
         = (issues w ++ [i])%list
       ∧ status i = "pending"
       ∧ _id i = next_id w
       ∧ emailid i = form_emailid form
       ∧ is_Some photo.
Proof.
  unfold serve, app, Backend.app, Unnamed.app, run. simpl.
  destruct srv.
  - unfold Backend.upload_single, Backend.post_issues, try_catch, bind, sync,
      await, new_issue, issue_save.
    destruct photo as [p|]; simpl; [|done].
    destruct (cloudinary_upload p) as [f|]; simpl; [|done].
    destruct (truthy _); simpl; [|done].
    destruct t as [|[] t]; simpl; try done; intros _; eauto 10.
  - unfold Unnamed.upload_single, Unnamed.post_issues, try_catch, bind, sync,
      await, new_issue, issue_save.
    destruct photo as [p|]; simpl; [|done].
    destruct t as [|[] t]; simpl; try done; intros _; eauto 10.
Qed.

(** C5. A submission with no file attached is answered 400 and leaves the
    world, hence the issue store and its document count, exactly as it
    was: on either server and on every tape. *)
Theorem submission_without_file srv now t auth form w :
  serve srv now t (mkRequest (POST_issues form None) auth) w
  = (mkResponse 400 (JError "no file uploaded"), w)
  ∧ length (issues (serve srv now t (mkRequest (POST_issues form None) auth) w).2)
    = length (issues w).
Proof. by destruct srv. Qed.

End Submission.

Lemma submission_lands_pending_witness :
  code (@serve demo unnamed_server 1700000000000 []
          (mkRequest (POST_issues main_st (Some photo_a)) None) empty_world).1 = 201
  ∧ ∃ i, issues after_one = (issues empty_world ++ [i])%list
         ∧ status i = "pending"
         ∧ _id i = next_id empty_world
         ∧ emailid i = form_emailid main_st
         ∧ is_Some (Some photo_a).
Proof.
  split; [vm_compute; reflexivity|].
  apply (@submission_lands_pending demo unnamed_server 1700000000000 [] None
           main_st (Some photo_a) empty_world).
  vm_compute. reflexivity.
Defined.

(** ** Status transition *)

Lemma update_by_id_find id f l :
  update_by_id id f l
  = match list_find (λ i, _id i = id) l with
    | None => (None, l)
    | Some (k, i) => (Some (f i), <[k := f i]> l)
    end.
Proof.
  induction l as [|x l IH]; csimpl; [done|].
  case_decide; [done|]. rewrite IH.
  by destruct (list_find _ l) as [[k i]|].
Qed.

Lemma patch_issue_status_works id s w :
  run (patch_issue_status (Some id) s) [] w
  = match list_find (λ i, _id i = id) (issues w) with
    | None => (mkResponse 404 (JMessage "Issue not found"), w)
    | Some (k, i) =>
        (json (JUpdated ("Issue " +:+ s) (set_status s i)),
         with_issues (<[k := set_status s i]> (issues w)) w)
    end.
Proof.
  unfold patch_issue_status, run, try_catch, bind, await,
    issue_findByIdAndUpdate. simpl.
  rewrite update_by_id_find.
  destruct (list_find _ _) as [[k i]|]; simpl; [done|].
  by destruct w.
Qed.

Lemma admitted_patch_uncast `{!Externals} srv now req raw s :
  route req = PATCH_issue_status_uncast raw s → admitted srv req →
  app srv now req = patch_issue_status None s.
Proof.
  intros Hr Hadm. destruct srv; unfold app, Backend.app, Unnamed.app;
    rewrite Hr; [|done].
  destruct Hadm as [?|[Hg|Hv]]; [done| |by apply verifyAdmin_verified].
  by rewrite Hr in Hg.
Qed.

(** C4, as the code has it. A status transition that reaches its handler
    with an id that casts to an ObjectId, on a store that works: when no
    Issue has the id ([list_find] finds none), the answer is 404 and the
    world is unchanged; otherwise the Issue with that id, at its position
    [k], has its status overwritten with the string supplied, whatever that
    string and the previous status are, and the updated record is returned.
    With an id that does not cast, the answer is 500 from the handler's
    [catch] and the world is unchanged, on every tape. *)
Theorem status_transition `{!Externals} srv now req id s w :
  route req = PATCH_issue_status id s → admitted srv req →
  serve srv now [] req w
  = match list_find (λ i, _id i = id) (issues w) with
    | None => (mkResponse 404 (JMessage "Issue not found"), w)
    | Some (k, i) =>
        (json (JUpdated ("Issue " +:+ s) (set_status s i)),
         with_issues (<[k := set_status s i]> (issues w)) w)
    end
  ∧ (∀ i, status (set_status s i) = s ∧ _id (set_status s i) = _id i)
  ∧ (list_find (λ i, _id i = id) (issues w) = None
     ↔ ∀ i, i ∈ issues w → _id i ≠ id)
  ∧ (∀ req' raw t,
       route req' = PATCH_issue_status_uncast raw s → admitted srv req' →
       serve srv now t req' w
       = (mkResponse 500 (JMessage "Failed to update issue status"), w)).
Proof.
  intros Hr Hadm. split_and!.
  - unfold serve. rewrite (admitted_patch _ _ _ id s) by done.
    apply patch_issue_status_works.
  - done.
  - by rewrite list_find_None, Forall_forall.
  - intros req' raw t Hr' Hadm'. unfold serve.
    by rewrite (admitted_patch_uncast _ _ _ raw s).
Qed.

Lemma status_transition_witness :
  @serve demo backend_server 0 []
    (mkRequest (PATCH_issue_status 1 "rejected") (Some "Bearer good")) town
  = match list_find (λ i, _id i = 1) (issues town) with
    | None => (mkResponse 404 (JMessage "Issue not found"), town)
    | Some (k, i) =>
        (json (JUpdated ("Issue " +:+ "rejected") (set_status "rejected" i)),
         with_issues (<[k := set_status "rejected" i]> (issues town)) town)
    end
  ∧ (∀ i, status (set_status "rejected" i) = "rejected"
          ∧ _id (set_status "rejected" i) = _id i)
  ∧ (list_find (λ i, _id i = 1) (issues town) = None
     ↔ ∀ i, i ∈ issues town → _id i ≠ 1)
  ∧ (∀ req' raw t,
       route req' = PATCH_issue_status_uncast raw "rejected" →
       @admitted demo backend_server req' →
       @serve demo backend_server 0 t req' town
       = (mkResponse 500 (JMessage "Failed to update issue status"), town)).
Proof.
  apply (@status_transition demo backend_server 0
           (mkRequest (PATCH_issue_status 1 "rejected") (Some "Bearer good"))
           1 "rejected" town).
  - reflexivity.
  - right; right. vm_compute. reflexivity.
Defined.

(** The three answers of a transition by a verified admin: the stored id,
    an ObjectId no Issue has, and a path parameter that is no ObjectId. *)
Example transition_answers :
  code (@serve demo backend_server 0 []
          (mkRequest (PATCH_issue_status 1 "rejected") (Some "Bearer good"))
          town).1 = 200
  ∧ code (@serve demo backend_server 0 []
            (mkRequest (PATCH_issue_status 7 "rejected") (Some "Bearer good"))
            town).1 = 404
  ∧ code (@serve demo backend_server 0 []
            (mkRequest (PATCH_issue_status_uncast "not-an-id" "rejected")
                       (Some "Bearer good")) town).1 = 500.
Proof. vm_compute. done. Qed.

(** C4, as stated, fails for a path parameter that is no ObjectId: no
    Issue has such an id, yet the call is answered 500 by the handler's own
    [catch], not 404, on the gated server with a verified token and on the
    ungated one alike. *)
Lemma uncast_id_is_answered_500 :
  @serve demo backend_server 0 []
    (mkRequest (PATCH_issue_status_uncast "not-an-id" "accepted")
               (Some "Bearer good")) town
  = (mkResponse 500 (JMessage "Failed to update issue status"), town)
  ∧ @serve demo unnamed_server 0 []
      (mkRequest (PATCH_issue_status_uncast "not-an-id" "accepted") None) town
    = (mkResponse 500 (JMessage "Failed to update issue status"), town)
  ∧ code (@serve demo unnamed_server 0 []
            (mkRequest (PATCH_issue_status_uncast "not-an-id" "accepted") None)
            town).1 ≠ 404.
Proof. vm_compute. split_and!; [done|done|discriminate]. Qed.

(** ** Cascading user deletion *)

Lemma head_filter_None {A} (P : A → Prop) `{!∀ x, Decision (P x)} (l : list A) :
  head (filter P l) = None ↔ ∀ x, x ∈ l → ¬ P x.
Proof.
  rewrite head_None. split.
  - intros Hnil x Hx HP.
    assert (x ∈ filter P l) as Hin by (by apply list_elem_of_filter).
    rewrite Hnil in Hin. by apply not_elem_of_nil in Hin.
  - intros Hall. induction l as [|x l IH]; [done|].
    rewrite filter_cons. case_decide as HP.
    + destruct (Hall x); [left|done].
    + apply IH. intros y Hy. apply Hall. by right.
Qed.

Lemma remove_first_length {A} (P : A → Prop) `{!∀ x, Decision (P x)} (l : list A) :
  (∃ x, x ∈ l ∧ P x) → S (length (remove_first P l)) = length l.
Proof.
  induction l as [|x l IH]; intros (y & Hy & HP).
  { by apply not_elem_of_nil in Hy. }
  simpl. case_decide as HPx; [done|].
  f_equal. apply IH. apply elem_of_cons in Hy as [->|Hy]; [done|eauto].
Qed.

Lemma remove_first_email e (us : list User) :
  NoDup (email <$> us) →
  ∀ u, u ∈ remove_first (λ u, email u = e) us → email u ≠ e.
Proof.
  induction us as [|x us IH]; csimpl; intros Hnd u Hu.
  { by apply not_elem_of_nil in Hu. }
  apply NoDup_cons in Hnd as [Hx Hnd]. case_decide as Hxe.
  - intros Hue. apply Hx. rewrite Hxe, <- Hue. by apply list_elem_of_fmap_2.
  - apply elem_of_cons in Hu as [->|Hu]; [done|by apply IH].
Qed.

Lemma delete_user_works e w :
  run (delete_user e) [] w
  = match head (filter (λ u, email u = e) (users w)) with
    | None => (mkResponse 404 (JMessage "User not found"), w)
    | Some _ =>
        (json (JMessage "User and all related issues deleted successfully"),
         mkWorld (filter (λ i, emailid i ≠ e) (issues w))
                 (remove_first (λ u, email u = e) (users w))
                 (next_id w) (uploads w))
    end.
Proof.
  unfold delete_user, run, try_catch, bind, await, user_findOneAndDelete,
    issue_deleteMany. simpl.
  destruct (head _) as [u|] eqn:Hu; simpl; [done|].
  f_equal. destruct w as [iss us n d]. unfold with_users. simpl in *. f_equal.
  rewrite head_filter_None in Hu.
  clear -Hu. induction us as [|x us IH]; simpl; [done|].
  case_decide as Hx; [|f_equal; apply IH; intros y Hy; apply Hu; by right].
  destruct (Hu x); [left|done].
Qed.

(** C6. A user deletion that reaches its handler, on a store that works.
    When no User has the email, the answer is 404 and the world, so the
    issue store, is untouched. When one has, the answer is 200, the first
    User with that email is removed (no User with it remains when emails
    are unique) and the issue store keeps exactly the Issues of other
    emails: none is left whose [emailid] is the email. *)
Theorem cascading_delete `{!Externals} srv now req e w :
  route req = DELETE_user e → admitted srv req →
  ∃ r w', serve srv now [] req w = (r, w')
    ∧ ((∀ u, u ∈ users w → email u ≠ e) →
         r = mkResponse 404 (JMessage "User not found") ∧ w' = w)
    ∧ ((∃ u, u ∈ users w ∧ email u = e) →
         r = json (JMessage "User and all related issues deleted successfully")
         ∧ users w' = remove_first (λ u, email u = e) (users w)
         ∧ S (length (users w')) = length (users w)
         ∧ (NoDup (email <$> users w) → ∀ u, u ∈ users w' → email u ≠ e)
         ∧ issues w' = filter (λ i, emailid i ≠ e) (issues w)
         ∧ ∀ i, i ∈ issues w' → emailid i ≠ e).
Proof.
  intros Hr Hadm. unfold serve. rewrite (admitted_delete _ _ _ e) by done.
  rewrite delete_user_works.
  destruct (head _) as [u|] eqn:Hu.
  - eexists _, _. split; [done|]. split.
    + intros Hall. apply head_Some_elem_of in Hu.
      apply list_elem_of_filter in Hu as [Hue Hin]. by destruct (Hall u).
    + intros Hex. simpl. split_and!; try done.
      * by apply remove_first_length.
      * intros Hnd. by apply remove_first_email.
      * intros i Hi. by apply list_elem_of_filter in Hi as [? _].
  - eexists _, _. split; [done|]. split; [done|].
    intros (u & Hin & Hue). rewrite head_filter_None in Hu. by destruct (Hu u).
Qed.

Lemma cascading_delete_witness :
  ∃ r w', @serve demo backend_server 0 []
            (mkRequest (DELETE_user "a@x.com") (Some "Bearer good")) town = (r, w')
    ∧ ((∀ u, u ∈ users town → email u ≠ "a@x.com") →
         r = mkResponse 404 (JMessage "User not found") ∧ w' = town)
    ∧ ((∃ u, u ∈ users town ∧ email u = "a@x.com") →
         r = json (JMessage "User and all related issues deleted successfully")
         ∧ users w' = remove_first (λ u, email u = "a@x.com") (users town)
         ∧ S (length (users w')) = length (users town)
         ∧ (NoDup (email <$> users town) → ∀ u, u ∈ users w' → email u ≠ "a@x.com")
         ∧ issues w' = filter (λ i, emailid i ≠ "a@x.com") (issues town)
         ∧ ∀ i, i ∈ issues w' → emailid i ≠ "a@x.com").
Proof.
  apply (@cascading_delete demo backend_server 0
           (mkRequest (DELETE_user "a@x.com") (Some "Bearer good"))
           "a@x.com" town).
  - reflexivity.
  - right; right. vm_compute. reflexivity.
Defined.

(** ** Listings *)

Lemma get_pending_works w :
  run get_pending [] w
  = (json (JIssues (filter (λ i, status i = "pending") (issues w))), w).
Proof.
  unfold get_pending, run, try_catch, bind, await, issue_find. simpl.
  do 3 f_equal. apply list_filter_iff. intros i. unfold matches. simpl.
  tauto.
Qed.

(** C10. GET /pending answers every caller, whatever the [Authorization]
    header and on either server, with the Issues whose status is
    [pending]: the stored records themselves ([JIssues], no [username]), in
    the order the store holds them (a filter of the collection, no sort). *)
Theorem pending_listing `{!Externals} srv now auth w :
  serve srv now [] (mkRequest GET_pending auth) w
  = (json (JIssues (filter (λ i, status i = "pending") (issues w))), w).
Proof. destruct srv; apply get_pending_works. Qed.

Section Listings.
Context `{!Externals}.

Lemma aggregated_serve srv now req w :
  aggregated (route req) = true → admitted srv req →
  serve srv now [] req w
  = (json (JNamedIssues ((λ i, mkNamed i (resolve_username (users w) i))
       <$> sort_desc_id (filter (matches (view_query (route req))) (issues w)))),
     w).
Proof.
  intros Hagg Hadm. unfold serve.
  rewrite admitted_aggregated by done. apply aggregated_view_works.
Qed.

(** C7, as the code has it. Each of the four aggregated views (all issues,
    by status, by submitter, accepted), on a store that works and whose
    ids are distinct, lists its issues by strictly descending id. *)
Theorem aggregated_listings_descending srv now req w :
  aggregated (route req) = true → admitted srv req → distinct_ids w →
  ∃ l, serve srv now [] req w = (json (JNamedIssues l), w)
       ∧ strictly_descending ((λ r, _id (doc r)) <$> l).
Proof.
  intros Hagg Hadm Hnd. rewrite aggregated_serve by done.
  eexists. split; [done|].
  rewrite <- list_fmap_compose.
  apply (sort_desc_id_descending (filter _ (issues w))).
  by apply distinct_ids_filter.
Qed.

End Listings.

Lemma aggregated_listings_descending_witness :
  ∃ l, @serve demo backend_server 0 []
         (mkRequest GET_issues (Some "Bearer good")) town
       = (json (JNamedIssues l), town)
       ∧ strictly_descending ((λ r, _id (doc r)) <$> l).
Proof.
  apply (@aggregated_listings_descending demo backend_server 0
           (mkRequest GET_issues (Some "Bearer good")) town).
  - reflexivity.
  - right; right. vm_compute. reflexivity.
  - unfold distinct_ids. vm_compute. apply NoDup_cons. split.
    + intros Hin. apply list_elem_of_singleton in Hin. discriminate.
    + apply NoDup_singleton.
Defined.

(** C7, as stated, fails at GET /pending: after two submissions the store
    holds ids 0 and 1, distinct, and the listing returns them in that
    order, the older one first. *)
Lemma pending_listing_not_descending :
  distinct_ids after_two
  ∧ @serve demo backend_server 1700000000001 [] (mkRequest GET_pending None)
      after_two
    = (json (JIssues (issues after_two)), after_two)
  ∧ _id <$> issues after_two = [0; 1]
  ∧ ¬ strictly_descending (_id <$> issues after_two).
Proof.
  split_and!.
  - unfold distinct_ids. vm_compute. apply NoDup_cons. split.
    + intros Hin. apply list_elem_of_singleton in Hin. discriminate.
    + apply NoDup_singleton.
  - vm_compute. reflexivity.
  - vm_compute. reflexivity.
  - intros Hdesc. specialize (Hdesc 0%nat 1%nat 0 1).
    assert (1 < 0) as Habs; [|lia].
    apply Hdesc; [lia|vm_compute; reflexivity..].
Qed.

(** ** Aggregation *)

Lemma same_key_same_element {A B} (f : A → B) (l : list A) x y :
  NoDup (f <$> l) → x ∈ l → y ∈ l → f x = f y → x = y.
Proof.
  induction l as [|z l IH]; csimpl; intros Hnd Hx Hy Hf.
  { by apply not_elem_of_nil in Hx. }
  apply NoDup_cons in Hnd as [Hz Hnd].
  apply elem_of_cons in Hx as [->|Hx]; apply elem_of_cons in Hy as [->|Hy].
  - done.
  - destruct Hz. rewrite Hf. by apply list_elem_of_fmap_2.
  - destruct Hz. rewrite <- Hf. by apply list_elem_of_fmap_2.
  - by apply IH.
Qed.

Lemma resolve_username_found us i :
  (∃ u, u ∈ us ∧ email u = emailid i) →
  ∃ u, u ∈ us ∧ email u = emailid i ∧ resolve_username us i = name u.
Proof.
  intros (u & Hin & Hu). unfold resolve_username.
  destruct (head _) as [u'|] eqn:Hhead.
  - apply head_Some_elem_of, list_elem_of_filter in Hhead as [? ?]. eauto.
  - rewrite head_filter_None in Hhead. by destruct (Hhead u).
Qed.

Lemma resolve_username_unique us i u :
  NoDup (email <$> us) → u ∈ us → email u = emailid i →
  resolve_username us i = name u.
Proof.
  intros Hnd Hin Hu.
  destruct (resolve_username_found us i) as (u' & Hin' & Hu' & ->); [by eauto|].
  f_equal. apply (same_key_same_element email us); [done..|congruence].
Qed.

Lemma resolve_username_anonymous us i :
  (∀ u, u ∈ us → email u ≠ emailid i) →
  resolve_username us i = "Anonymous User".
Proof.
  intros Hnone. unfold resolve_username.
  destruct (head _) as [u|] eqn:Hhead; [|done].
  apply head_Some_elem_of, list_elem_of_filter in Hhead as [? ?].
  by destruct (Hnone u).
Qed.

(** C8. In each of the four aggregated views, on a store that works,
    every entry carries as [username] the name of a User whose email is the
    entry's [emailid] when there is one (the User of that email, when
    emails are unique), and the string [Anonymous User] when there is
    none. *)
Theorem aggregated_usernames `{!Externals} srv now req w :
  aggregated (route req) = true → admitted srv req →
  ∃ l, serve srv now [] req w = (json (JNamedIssues l), w)
    ∧ ∀ r, r ∈ l →
        ((∃ u, u ∈ users w ∧ email u = emailid (doc r)) →
           ∃ u, u ∈ users w ∧ email u = emailid (doc r) ∧ username r = name u)
        ∧ (NoDup (email <$> users w) →
           ∀ u, u ∈ users w → email u = emailid (doc r) → username r = name u)
        ∧ ((∀ u, u ∈ users w → email u ≠ emailid (doc r)) →
           username r = "Anonymous User").
Proof.
  intros Hagg Hadm. rewrite aggregated_serve by done.
  eexists. split; [done|].
  intros r Hr. apply list_elem_of_fmap in Hr as (i & -> & _). simpl.
  split_and!.
  - apply resolve_username_found.
  - intros Hnd u. by apply resolve_username_unique.
  - apply resolve_username_anonymous.
Qed.

Lemma aggregated_usernames_witness :
  ∃ l, @serve demo unnamed_server 0 []
         (mkRequest (GET_issues_status "pending") None) town
       = (json (JNamedIssues l), town)
    ∧ ∀ r, r ∈ l →
        ((∃ u, u ∈ users town ∧ email u = emailid (doc r)) →
           ∃ u, u ∈ users town ∧ email u = emailid (doc r) ∧ username r = name u)
        ∧ (NoDup (email <$> users town) →
           ∀ u, u ∈ users town → email u = emailid (doc r) → username r = name u)
        ∧ ((∀ u, u ∈ users town → email u ≠ emailid (doc r)) →
           username r = "Anonymous User").
Proof.
  apply (@aggregated_usernames demo unnamed_server 0
           (mkRequest (GET_issues_status "pending") None) town).
  - reflexivity.
  - by left.
Defined.

(** The scenario of the spec: after the submissions, the pending view names
    the submitter of each issue, newest first; without the account it falls
    back to the anonymous name. *)
Example pending_view_of_town :
  (@serve demo unnamed_server 0 [] (mkRequest (GET_issues_status "pending") None)
     town).1
  = json (JNamedIssues
      ((λ i, mkNamed i "Alice") <$> reverse (issues after_two))).
Proof. vm_compute. reflexivity. Qed.

Example pending_view_without_account :
  (@serve demo unnamed_server 0 [] (mkRequest (GET_issues_status "pending") None)
     after_two).1
  = json (JNamedIssues
      ((λ i, mkNamed i "Anonymous User") <$> reverse (issues after_two))).
Proof. vm_compute. reflexivity. Qed.

(** ** The admin gate *)

(** C3, as the code has it. On [src/backend/server.js], a request to one of
    the six gated routes whose bearer token does not verify is answered by
    the gate alone: the whole computation is the return of that answer (no
    handler, no store call, on every tape), the world is unchanged, the
    code is 401 when there is no [Authorization] header and 403 when the
    header carries a token that fails verification. *)
Theorem gate_denies `{!Externals} now t req w :
  gated (route req) = true → verified req = false →
  ∃ r, Backend.app now req = ret r
     ∧ serve backend_server now t req w = (r, w)
     ∧ (code r = 401 ∨ code r = 403)
     ∧ (authorization req = None → code r = 401)
     ∧ (∀ token, authorization req ≫= bearer = Some token → code r = 403).
Proof.
  intros Hg Hv.
  exists (match authorization req ≫= bearer with
          | None => mkResponse 401 (JMessage "No token provided")
          | Some _ => mkResponse 403 (JMessage "Invalid or expired token")
          end).
  assert (Backend.app now req = ret
            match authorization req ≫= bearer with
            | None => mkResponse 401 (JMessage "No token provided")
            | Some _ => mkResponse 403 (JMessage "Invalid or expired token")
            end) as Happ.
  { unfold Backend.app. destruct (route req); try done;
      by apply verifyAdmin_unverified. }
  split_and!.
  - done.
  - unfold serve, app. by rewrite Happ.
  - destruct (authorization req ≫= bearer); auto.
  - by intros ->.
  - by intros token ->.
Qed.

Lemma gate_denies_witness :
  ∃ r, @Backend.app demo 0 (mkRequest (PATCH_issue_status 0 "rejected") None) = ret r
     ∧ @serve demo backend_server 0 []
         (mkRequest (PATCH_issue_status 0 "rejected") None) after_one
       = (r, after_one)
     ∧ (code r = 401 ∨ code r = 403)
     ∧ (authorization (mkRequest (PATCH_issue_status 0 "rejected") None) = None →
        code r = 401)
     ∧ (∀ token,
          authorization (mkRequest (PATCH_issue_status 0 "rejected") None) ≫= bearer
          = Some token → code r = 403).
Proof.
  apply (@gate_denies demo 0 []
           (mkRequest (PATCH_issue_status 0 "rejected") None) after_one).
  - reflexivity.
  - reflexivity.
Defined.

(** An expired or forged token is refused with 403, a missing header with
    401, and the valid token goes through. *)
Example gate_codes :
  code (@serve demo backend_server 0 []
          (mkRequest GET_users_count None) town).1 = 401
  ∧ code (@serve demo backend_server 0 []
            (mkRequest GET_users_count (Some "Bearer stale")) town).1 = 403
  ∧ (@serve demo backend_server 0 []
       (mkRequest GET_users_count (Some "Bearer good")) town).1
    = json (JCount 2).
Proof. vm_compute. done. Qed.

(** C3, as stated, fails on [src/unnamed/part_000]: the status transition
    is a moderation-sensitive route, the request carries no token, and the
    handler runs and rejects the issue. *)
Lemma ungated_server_runs_handler :
  gated (PATCH_issue_status 0 "rejected") = true
  ∧ @verified demo (mkRequest (PATCH_issue_status 0 "rejected") None) = false
  ∧ code (@serve demo unnamed_server 0 []
            (mkRequest (PATCH_issue_status 0 "rejected") None) after_one).1 = 200
  ∧ status <$> issues after_one = ["pending"]
  ∧ status <$> issues (@serve demo unnamed_server 0 []
                         (mkRequest (PATCH_issue_status 0 "rejected") None)
                         after_one).2 = ["rejected"].
Proof. vm_compute. done. Qed.

(** ** The status invariant *)

Lemma update_by_id_Forall (P : Issue → Prop) id f l :
  Forall P l → (∀ i, P i → P (f i)) → Forall P (update_by_id id f l).2.
Proof.
  intros Hl Hf. induction Hl as [|x l Hx Hl IH]; simpl; [done|].
  case_decide; simpl; [by constructor; auto|].
  destruct (update_by_id id f l) as [r l']. simpl in *. by constructor.
Qed.

Lemma update_by_id_ids id s l :
  _id <$> (update_by_id id (set_status s) l).2 = _id <$> l.
Proof.
  induction l as [|x l IH]; csimpl; [done|].
  case_decide; simpl; [done|].
  destruct (update_by_id id (set_status s) l) as [r l']. simpl in *.
  csimpl. by f_equal.
Qed.

(** C2, as the code has it. The issue store starts within the status set
    and every request keeps it there, on either server and on every tape,
    provided that a status transition supplies a member of the set; an
    Issue has one status at all times, its [status] field. *)
Theorem status_invariant_preserved `{!Externals} srv now t req w :
  status_invariant w →
  (∀ id s, route req = PATCH_issue_status id s → s ∈ status_set) →
  status_invariant empty_world
  ∧ status_invariant (serve srv now t req w).2.
Proof.
  intros Hinv Hpatch. split; [by constructor|].
  unfold status_invariant in *.
  destruct (serve_effect srv now t req w)
    as [->|form photo i _ -> Hi|id s Hr ->|e _ ->]; [done| | |].
  - apply Forall_app. split; [done|]. constructor; [|done].
    rewrite Hi. unfold status_set. set_solver.
  - apply update_by_id_Forall; [done|]. intros i _. simpl. by eapply Hpatch.
  - rewrite Forall_forall in Hinv |- *. intros i Hi.
    apply list_elem_of_filter in Hi as [_ Hi]. by apply Hinv.
Qed.

Lemma status_invariant_preserved_witness :
  status_invariant empty_world
  ∧ status_invariant
      (@serve demo backend_server 0 []
         (mkRequest (PATCH_issue_status 0 "accepted") (Some "Bearer good"))
         after_one).2.
Proof.
  apply (@status_invariant_preserved demo backend_server 0 []
           (mkRequest (PATCH_issue_status 0 "accepted") (Some "Bearer good"))
           after_one).
  - unfold status_invariant. vm_compute.
    constructor; [|constructor]. apply list_elem_of_here.
  - intros id s Hr. simpl in Hr. injection Hr as <- <-.
    apply list_elem_of_further, list_elem_of_here.
Defined.

(** C2, as stated, fails: one submission, then a transition to a status
    outside the set by a verified admin, and the store holds it. *)
Lemma status_invariant_broken :
  status_invariant after_one
  ∧ status <$> issues
      (@serve demo backend_server 0 []
         (mkRequest (PATCH_issue_status 0 "archived") (Some "Bearer good"))
         after_one).2 = ["archived"]
  ∧ ¬ status_invariant
      (@serve demo backend_server 0 []
         (mkRequest (PATCH_issue_status 0 "archived") (Some "Bearer good"))
         after_one).2.
Proof.
  split_and!.
  - unfold status_invariant. vm_compute.
    constructor; [|constructor]. apply list_elem_of_here.
  - vm_compute. reflexivity.
  - unfold status_invariant. intros Hinv.
    apply (Forall_fmap status (λ s, s ∈ status_set)) in Hinv.
    replace (status <$> _) with ["archived"] in Hinv
      by (vm_compute; reflexivity).
    apply Forall_cons in Hinv as [Hin _]. unfold status_set in Hin.
    rewrite !elem_of_cons, elem_of_nil in Hin.
    destruct Hin as [?|[?|[?|[]]]]; discriminate.
Qed.

(** X23. The ids of the issue store stay distinct, and below the supply,
    through every request, on either server and on every tape. *)
Lemma ids_stay_distinct `{!Externals} srv now t req w :
  distinct_ids w → supply_ahead w →
  distinct_ids (serve srv now t req w).2 ∧ supply_ahead (serve srv now t req w).2.
Proof.
  unfold distinct_ids, supply_ahead. intros Hnd Hsup.
  destruct (serve_effect srv now t req w)
    as [-> Hn|form photo i _ -> _ Hi ->|id s _ -> ->|e _ -> ->].
  - split; [done|]. eapply Forall_impl; [done|]. simpl. intros; lia.
  - split.
    + rewrite fmap_app. apply NoDup_app. split_and!; [done| |apply NoDup_singleton].
      intros x Hx Hx'. apply list_elem_of_singleton in Hx'. subst x.
      apply list_elem_of_fmap in Hx as (j & Hj & Hin).
      rewrite Forall_forall in Hsup. specialize (Hsup j Hin). simpl in Hsup. lia.
    + apply Forall_app. split.
      * eapply Forall_impl; [done|]. simpl. intros; lia.
      * constructor; [lia|done].
  - split; [by rewrite update_by_id_ids|].
    by apply update_by_id_Forall.
  - split; [by apply distinct_ids_filter|].
    rewrite Forall_forall in Hsup |- *. intros i Hi.
    apply list_elem_of_filter in Hi as [_ Hi]. by apply Hsup.
Qed.

(** ** Stored names of the disk storage *)

Lemma extname_scan_invariant p n st :
  scan_invariant p n st → scan_invariant p 0 (extname_scan p n st).
Proof.
  revert st. induction n as [|i IH]; intros st Hinv; simpl; [done|].
  destruct (String.get i p) as [c|] eqn:Hc.
  2:{ destruct Hinv as [Hend Hdot]. split; [intros; lia|done]. }
  case_decide as Hslash.
  { destruct Hinv as [Hend Hdot]. destruct (matchedSlash st).
    - apply IH. split; [|done]. intros e He. specialize (Hend e He). lia.
    - split; [intros; lia|done]. }
  apply IH. destruct Hinv as [Hend Hdot].
  destruct st as [sd sp [e|] ms pd]; simpl in *.
  - specialize (Hend e eq_refl).
    case_decide as Hc'; destruct sd as [sd|]; simpl; split; simpl;
      try (intros ? [= <-]; lia); try done.
    intros ? [= <-]. subst c. split; [done|]. exists e. split; [done|lia].
  - case_decide as Hc'; destruct sd as [sd|]; simpl; split; simpl;
      try (intros ? [= <-]; lia); try done;
      try (by destruct (Hdot sd eq_refl) as (_ & ? & ? & _)).
    intros ? [= <-]. subst c. split; [done|]. exists (S i). split; [done|lia].
Qed.

Lemma substring_head p sd k c :
  String.get sd p = Some c → ∃ s, String.substring sd (S k) p = String c s.
Proof.
  revert sd. induction p as [|c' p IH]; intros [|sd]; simpl; try done.
  - intros [= ->]. eauto.
  - apply IH.
Qed.

Lemma extname_dotted p : dotted (extname p).
Proof.
  unfold extname.
  destruct (extname_scan_invariant p (String.length p)
              (mkExtScan None 0 None true 0%Z)) as [_ Hdot].
  { by unfold scan_invariant. }
  destruct (startDot _) as [sd|]; [|by left].
  destruct (Hdot sd eq_refl) as (Hget & e & -> & Hlt).
  destruct (_ || _); [by left|]. right.
  replace (e - sd)%nat with (S (e - sd - 1)) by lia.
  by eapply substring_head.
Qed.

Lemma pretty_N_go_dotless x s : dotless s → dotless (pretty_N_go x s).
Proof.
  revert s. induction (N.lt_wf_0 x) as [x _ IH]; intros s Hs.
  assert (x = 0 ∨ 0 < x) as [->|?] by lia; [done|].
  rewrite pretty_N_go_step by done. apply IH; [by apply N.div_lt|].
  split; [|done]. unfold pretty_N_char. by repeat case_match.
Qed.

Lemma pretty_N_dotless (n : N) : dotless (pretty n).
Proof.
  unfold pretty, pretty_N. case_decide; [by split|].
  by apply pretty_N_go_dotless.
Qed.

Lemma stored_name_halves d1 d2 e1 e2 :
  dotless d1 → dotless d2 → dotted e1 → dotted e2 →
  d1 +:+ e1 = d2 +:+ e2 → d1 = d2 ∧ e1 = e2.
Proof.
  revert d2. induction d1 as [|c d1 IH]; intros [|c' d2]; simpl.
  - done.
  - intros _ [Hc _] [->|[s ->]] _; [done|]. intros [= Hdot _]. congruence.
  - intros [Hc _] _ _ [->|[s ->]]; [done|]. intros [= Hdot _]. congruence.
  - intros [_ H1] [_ H2] He1 He2 [= -> Heq].
    destruct (IH d2 H1 H2 He1 He2 Heq) as [-> ->]. done.
Qed.

(** X24. When two uploads get the same stored name: exactly when they are
    handled in the same millisecond and have the same extension. *)
Lemma disk_names_equal_iff now1 now2 p q :
  Unnamed.diskStorage_filename now1 p = Unnamed.diskStorage_filename now2 q
  ↔ now1 = now2 ∧ extname (originalname p) = extname (originalname q).
Proof.
  unfold Unnamed.diskStorage_filename. split; [|by intros [-> ->]].
  intros Heq.
  apply stored_name_halves in Heq as [Hnow ?];
    auto using pretty_N_dotless, extname_dotted.
  split; [|done]. by apply (inj pretty).
Qed.

Lemma disk_name_of_extension now p q :
  extname (originalname p) = extname (originalname q) →
  Unnamed.diskStorage_filename now p = Unnamed.diskStorage_filename now q.
Proof. unfold Unnamed.diskStorage_filename. by intros ->. Qed.

(** C9 at its failing input: two distinct uploads handled in the same
    millisecond with the same extension get the same stored name; the
    second file replaces the first in the uploads directory and both
    Issues point at it. By [disk_names_equal_iff] these are the only
    collisions. *)
Theorem same_millisecond_uploads_collide :
  photo_a ≠ photo_b
  ∧ Unnamed.diskStorage_filename 1700000000000 photo_a = "1700000000000.png"
  ∧ Unnamed.diskStorage_filename 1700000000000 photo_b = "1700000000000.png"
  ∧ photo <$> issues after_two
    = ["/uploads/1700000000000.png"; "/uploads/1700000000000.png"]
  ∧ uploads after_one = {[ "1700000000000.png" := content photo_a ]}
  ∧ uploads after_two = {[ "1700000000000.png" := content photo_b ]}.
Proof. split_and!; [done|vm_compute; reflexivity..]. Qed.

(** ** Aggregated views on any tape *)

Lemma rejects_within_nil n : rejects_within n [] = false.
Proof. unfold rejects_within. by rewrite take_nil. Qed.

Lemma promise_all_map_attach_tape l t w :
  ∃ t', promise_all_map attach_username l t w
        = (if rejects_within (length l) t then Throw
           else Ok ((λ i, mkNamed i (resolve_username (users w) i)) <$> l),
           w, t').
Proof.
  revert t. induction l as [|i l IH]; intros t.
  { by exists t. }
  destruct t as [|[] t].
  - exists []. rewrite rejects_within_nil. apply promise_all_map_attach.
  - by exists t.
  - destruct (IH t) as [t' Ht']. exists t'.
    change (rejects_within (length (i :: l)) (false :: t))
      with (rejects_within (length l) t).
    simpl. unfold bind at 1. simpl. unfold bind at 1. rewrite Ht'.
    by destruct (rejects_within _ _).
Qed.

Lemma aggregated_view_tape q failure t w :
  run (aggregated_view q failure) t w
  = (if rejects_within (S (length (filter (matches q) (issues w)))) t
     then mkResponse 500 (JError failure)
     else json (JNamedIssues
            ((λ i, mkNamed i (resolve_username (users w) i))
               <$> sort_desc_id (filter (matches q) (issues w)))),
     w).
Proof.
  rewrite <- (Permutation_length (sort_desc_id_perm (filter (matches q) (issues w)))).
  unfold run, aggregated_view, try_catch, bind at 1.
  destruct t as [|[] t]; simpl.
  - unfold bind. by rewrite promise_all_map_attach.
  - done.
  - destruct (promise_all_map_attach_tape
                (sort_desc_id (filter (matches q) (issues w))) t w) as [t' Ht'].
    unfold bind. rewrite Ht'.
    change (rejects_within (S ?n) (false :: t)) with (rejects_within n t).
    by destruct (rejects_within _ _).
Qed.

(** X1. An aggregated view makes one store call for the query and one per
    listed issue: it answers 200 with the whole list when none of them
    rejects and 500 with its message as soon as one does, never a part of
    the list, and it leaves the world as it was. *)
Theorem aggregated_view_all_or_nothing `{!Externals} srv now t req w :
  aggregated (route req) = true → admitted srv req →
  serve srv now t req w
  = (if rejects_within
          (S (length (filter (matches (view_query (route req))) (issues w)))) t
     then mkResponse 500 (JError (view_failure (route req)))
     else json (JNamedIssues (view_of (route req) w)),
     w).
Proof.
  intros Hagg Hadm. unfold serve.
  rewrite admitted_aggregated by done. apply aggregated_view_tape.
Qed.

Lemma aggregated_view_all_or_nothing_witness :
  @serve demo unnamed_server 0 [false; false; true]
    (mkRequest (GET_issues_status "pending") None) town
  = (if rejects_within
          (S (length (filter (matches (view_query (GET_issues_status "pending")))
                        (issues town)))) [false; false; true]
     then mkResponse 500 (JError (view_failure (GET_issues_status "pending")))
     else json (JNamedIssues (view_of (GET_issues_status "pending") town)),
     town).
Proof.
  apply (@aggregated_view_all_or_nothing demo unnamed_server 0
           [false; false; true]
           (mkRequest (GET_issues_status "pending") None) town).
  - reflexivity.
  - by left.
Defined.

(** ** What requests leave alone *)

Section Frames.
Context `{!Externals}.

Lemma read_only_get_admin_verify req : read_only (Backend.get_admin_verify req).
Proof.
  unfold Backend.get_admin_verify.
  destruct (truthy _); [|apply read_only_ret].
  destruct (from_option _ _ _); apply read_only_ret.
Qed.

Lemma read_only_verifyAdmin req h :
  read_only h → read_only (Backend.verifyAdmin req h).
Proof.
  intros Hh. destruct (verified req) eqn:Hv.
  - by rewrite verifyAdmin_verified.
  - rewrite verifyAdmin_unverified by done. apply read_only_ret.
Qed.

Lemma read_only_app srv now req :
  reads (route req) = true → read_only (app srv now req).
Proof.
  intros Hr. destruct srv; unfold app, Backend.app, Unnamed.app;
    destruct (route req); try done;
    try apply read_only_verifyAdmin;
    first [ apply read_only_aggregated_view | apply read_only_get_pending
          | apply read_only_get_users_count | apply read_only_get_users_search
          | apply read_only_get_admin_verify | apply read_only_ret ].
Qed.

(** X2. A GET request never writes: on either server and whatever the
    store calls do, it leaves the issues, the users, the id supply and the
    uploads exactly as they were. *)
Theorem reads_never_write srv now t req w :
  reads (route req) = true → (serve srv now t req w).2 = w.
Proof. intros Hr. by apply read_only_run, read_only_app. Qed.

Lemma serve_users srv now t req w :
  users (serve srv now t req w).2 = users w
  ∨ ∃ e, route req = DELETE_user e
         ∧ users (serve srv now t req w).2
           = remove_first (λ u, email u = e) (users w).
Proof.
  unfold serve.
  destruct (reads (route req)) eqn:Hr.
  { left. by rewrite (read_only_run (app srv now req)) by by apply read_only_app. }
  assert (∀ h : M Response,
            (users (run h t w).2 = users w
             ∨ ∃ e, route req = DELETE_user e
                    ∧ users (run h t w).2
                      = remove_first (λ u, email u = e) (users w)) →
            (users (run (Backend.verifyAdmin req h) t w).2 = users w
             ∨ ∃ e, route req = DELETE_user e
                    ∧ users (run (Backend.verifyAdmin req h) t w).2
                      = remove_first (λ u, email u = e) (users w)))
    as Hgate.
  { intros h Hh. destruct (verified req) eqn:Hv.
    - by rewrite verifyAdmin_verified.
    - rewrite verifyAdmin_unverified by done. by left. }
  assert (∀ id s, users (run (patch_issue_status (Some id) s) t w).2 = users w)
    as Hpatch.
  { intros id s. unfold patch_issue_status, run, try_catch, bind, await,
      issue_findByIdAndUpdate.
    destruct (update_by_id id (set_status s) (issues w)) as [r l].
    by destruct t as [|[] t]; simpl; try destruct r. }
  assert (∀ e, users (run (delete_user e) t w).2 = users w
               ∨ users (run (delete_user e) t w).2
                 = remove_first (λ u, email u = e) (users w))
    as Hdelete.
  { intros e. unfold delete_user, run, try_catch, bind, await,
      user_findOneAndDelete, issue_deleteMany.
    destruct (head (filter (λ u, email u = e) (users w))) as [u|] eqn:Hu;
      destruct t as [|[] [|[] t]]; simpl; rewrite ?Hu; simpl; auto. }
  destruct srv; unfold app, Backend.app, Unnamed.app;
    destruct (route req) as [form photo| |s|e s| | |id s| |pattern|e| |raw s] eqn:Hroute;
    try done; try apply Hgate; try (left; apply Hpatch);
    try (destruct (Hdelete e) as [?|?]; [by left|right; by exists e]);
    try (by left).
  - left. unfold Backend.upload_single, Backend.post_issues, run, try_catch,
      bind, sync, await, new_issue, issue_save.
    destruct photo as [p|]; simpl; [|done].
    destruct (cloudinary_upload p) as [f|]; simpl; [|done].
    destruct (truthy _); simpl; [|done].
    by destruct t as [|[] t].
  - left. unfold Unnamed.upload_single, Unnamed.post_issues, run, try_catch,
      bind, sync, await, new_issue, issue_save.
    destruct photo as [p|]; simpl; [|done].
    by destruct t as [|[] t].
Qed.

(** X3. The user collection shrinks only through DELETE /api/users/:email,
    and by one user at a time: after any request of these routes the users
    are as before, or the request was a deletion and the first user of its
    email is gone. *)
Theorem users_only_deleted srv now t req w :
  users (serve srv now t req w).2 = users w
  ∨ ∃ e, route req = DELETE_user e
         ∧ users (serve srv now t req w).2
           = remove_first (λ u, email u = e) (users w).
Proof. apply serve_users. Qed.

(** X4. The lifecycle of issues. After any request, on either server and on
    every tape, the issue store is as before, or a submission appended one
    issue with the fresh id and status [pending], or a status transition
    rewrote the status of the first issue with its id, or a user deletion
    removed exactly the issues of its email. *)
Theorem issue_lifecycle srv now t req w :
  issues (serve srv now t req w).2 = issues w
  ∨ (∃ form photo i, route req = POST_issues form photo
       ∧ issues (serve srv now t req w).2 = (issues w ++ [i])%list
       ∧ status i = "pending" ∧ _id i = next_id w)
  ∨ (∃ id s, route req = PATCH_issue_status id s
       ∧ issues (serve srv now t req w).2
         = (update_by_id id (set_status s) (issues w)).2)
  ∨ (∃ e, route req = DELETE_user e
       ∧ issues (serve srv now t req w).2
         = filter (λ i, emailid i ≠ e) (issues w)).
Proof.
  destruct (serve_effect srv now t req w)
    as [?|form photo i ? ? ? ?|id s ? ?|e ? ?]; eauto 10.
Qed.

End Frames.

Lemma reads_never_write_witness :
  (@serve demo backend_server 0 [false; true]
     (mkRequest GET_users_count (Some "Bearer good")) town).2 = town.
Proof.
  apply (@reads_never_write demo backend_server 0 [false; true]
           (mkRequest GET_users_count (Some "Bearer good")) town).
  reflexivity.
Defined.

(** ** When the store is down *)

Section StoreDown.
Context `{!Externals}.

Lemma run_verifyAdmin_cases req (h : M Response) t w :
  run (Backend.verifyAdmin req h) t w = run h t w
  ∨ (∃ r, run (Backend.verifyAdmin req h) t w = (r, w)
          ∧ (code r = 401 ∨ code r = 403)).
Proof.
  destruct (verified req) eqn:Hv.
  - left. by rewrite verifyAdmin_verified.
  - right. rewrite verifyAdmin_unverified by done.
    eexists. split; [done|]. destruct (authorization req ≫= bearer); auto.
Qed.

(** X5. When the first store call of a request rejects, no collection
    changes: the issues and the users are as before, and unless the route
    is the session check (which makes no store call) the answer is an error
    with code 400, 401, 403 or 500. *)
Theorem store_down_changes_nothing srv now t req w :
  issues (serve srv now (true :: t) req w).2 = issues w
  ∧ users (serve srv now (true :: t) req w).2 = users w
  ∧ (route req ≠ GET_admin_verify →
     code (serve srv now (true :: t) req w).1 ∈ [400; 401; 403; 500]).
Proof.
  unfold serve.
  set (ok := λ o : Response * World,
         issues o.2 = issues w ∧ users o.2 = users w
         ∧ code o.1 ∈ [400; 401; 403; 500]).
  assert (∀ h, ok (run h (true :: t) w) →
               ok (run (Backend.verifyAdmin req h) (true :: t) w)) as Hgate.
  { intros h Hh.
    destruct (run_verifyAdmin_cases req h (true :: t) w)
      as [->|(r & -> & [Hr|Hr])]; [done|..]; unfold ok; simpl;
      (split_and!; [done|done|rewrite Hr; in_codes]). }
  assert (route req ≠ GET_admin_verify →
          ok (run (app srv now req) (true :: t) w)) as Hmain.
  { intros Hroute. unfold ok in *.
    destruct srv; unfold app, Backend.app, Unnamed.app;
      destruct (route req) as [form photo| |s|e s| | |id s| |pattern|e| |raw s];
      try done; try apply Hgate;
      try (split_and!; [done|done|in_codes]).
    - unfold Backend.upload_single. destruct photo as [p|];
        [|split_and!; [done|done|in_codes]].
      destruct (cloudinary_upload p) as [f|];
        [|split_and!; [done|done|in_codes]].
      unfold Backend.post_issues, run, try_catch, bind, sync, await. simpl.
      destruct (truthy _); split_and!; try done; in_codes.
    - unfold get_users_search, run, try_catch.
      destruct (truthy pattern); [|split_and!; [done|done|in_codes]].
      destruct (regexp_i _); split_and!; try done; in_codes.
    - unfold Unnamed.upload_single. destruct photo as [p|];
        split_and!; try done; in_codes.
    - unfold get_users_search, run, try_catch.
      destruct (truthy pattern); [|split_and!; [done|done|in_codes]].
      destruct (regexp_i _); split_and!; try done; in_codes. }
  destruct (reads (route req)) eqn:Hreads.
  - rewrite (read_only_run (app srv now req)) by by apply read_only_app.
    split_and!; [done|done|]. intros Hroute. by apply Hmain.
  - assert (route req ≠ GET_admin_verify) as Hroute
      by (by destruct (route req)).
    destruct (Hmain Hroute) as (? & ? & ?). by split_and!.
Qed.

End StoreDown.

(** ** Failure modes of deletion and submission *)

Section Failures.
Context `{!Externals}.

(** X6. The cascade is two store calls, not a transaction: when the user
    is found and deleted and the deletion of the issues then rejects, the
    answer is 500, the user is gone and every one of the issues is still
    stored. *)
Theorem cascade_partial_failure srv now t req e w :
  route req = DELETE_user e → admitted srv req →
  (∃ u, u ∈ users w ∧ email u = e) →
  serve srv now (false :: true :: t) req w
  = (mkResponse 500 (JMessage "Failed to delete user and issues"),
     with_users (remove_first (λ u, email u = e) (users w)) w)
  ∧ issues (serve srv now (false :: true :: t) req w).2 = issues w
  ∧ S (length (users (serve srv now (false :: true :: t) req w).2))
    = length (users w).
Proof.
  intros Hr Hadm Hex.
  assert (serve srv now (false :: true :: t) req w
          = (mkResponse 500 (JMessage "Failed to delete user and issues"),
             with_users (remove_first (λ u, email u = e) (users w)) w)) as ->.
  { unfold serve. rewrite (admitted_delete _ _ _ e) by done.
    unfold delete_user, run, try_catch, bind, await, user_findOneAndDelete.
    simpl. destruct (head _) as [u|] eqn:Hu; [done|].
    rewrite head_filter_None in Hu. destruct Hex as (u & Hin & Hue).
    by destruct (Hu u). }
  split_and!; [done|done|]. simpl. by apply remove_first_length.
Qed.

(** X7. On the disk server a submission whose save rejects is answered
    500 and stores no issue, yet the uploaded file stays in the uploads
    directory under its stored name and an id has been used up. *)
Theorem failed_save_leaves_file now t auth form p w :
  serve unnamed_server now (true :: t)
    (mkRequest (POST_issues form (Some p)) auth) w
  = (mkResponse 500 (JError "Internal Server Error"),
     mkWorld (issues w) (users w) (next_id w + 1)
       (<[Unnamed.diskStorage_filename now p := content p]> (uploads w))).
Proof. done. Qed.

(** X8. On the disk server the photo of a created issue leads to the bytes
    that were uploaded: after a 201 the new issue's [photo] is [/uploads/]
    followed by a file name under which the uploads directory holds the
    content of the request's file. *)
Theorem stored_evidence_is_retrievable now t auth form p w :
  code (serve unnamed_server now t
          (mkRequest (POST_issues form (Some p)) auth) w).1 = 201 →
  ∃ i stored,
    issues (serve unnamed_server now t
              (mkRequest (POST_issues form (Some p)) auth) w).2
    = (issues w ++ [i])%list
    ∧ photo i = "/uploads/" +:+ stored
    ∧ uploads (serve unnamed_server now t
                 (mkRequest (POST_issues form (Some p)) auth) w).2 !! stored
      = Some (content p).
Proof.
  unfold serve, app, Unnamed.app, run, Unnamed.upload_single,
    Unnamed.post_issues, try_catch, bind, sync, await, new_issue, issue_save.
  simpl. destruct t as [|[] t]; simpl; try done; intros _;
    eexists _, _; (split_and!; [done|done|]); simpl; apply lookup_insert_eq.
Qed.

Lemma js_or_chain f :
  js_or (js_or (path f) (url f)) (secure_url f) = chosen_url f.
Proof.
  unfold js_or, chosen_url.
  destruct (truthy (path f)) eqn:Hp; [by rewrite Hp|].
  by destruct (truthy (url f)) eqn:Hu.
Qed.

(** X9. On the Cloudinary server the photo of a created issue is the first
    non-empty one of [path], [url] and [secure_url] of the stored file.
    When the upload is refused the answer is Express's 500 page; when the
    three urls are all missing or empty it is 500 "Cloudinary upload
    failed"; in both cases the world is unchanged, on every tape. *)
Theorem backend_photo_url now t auth form p w :
  match cloudinary_upload p with
  | None =>
      serve backend_server now t (mkRequest (POST_issues form (Some p)) auth) w
      = (mkResponse 500 ErrorPage, w)
  | Some f =>
      (truthy (chosen_url f) = false →
       serve backend_server now t (mkRequest (POST_issues form (Some p)) auth) w
       = (mkResponse 500 (JError "Cloudinary upload failed"), w))
      ∧ (code (serve backend_server now t
                 (mkRequest (POST_issues form (Some p)) auth) w).1 = 201 →
         ∃ i u,
           issues (serve backend_server now t
                     (mkRequest (POST_issues form (Some p)) auth) w).2
           = (issues w ++ [i])%list
           ∧ chosen_url f = Some u ∧ u ≠ "" ∧ photo i = u)
  end.
Proof.
  unfold serve, app, Backend.app, run, Backend.upload_single. simpl.
  destruct (cloudinary_upload p) as [f|]; [|done].
  unfold Backend.post_issues, try_catch, bind, sync, await, new_issue,
    issue_save. rewrite js_or_chain.
  destruct (truthy (chosen_url f)) eqn:Htruthy; simpl.
  - split; [done|].
    destruct (chosen_url f) as [u|] eqn:Hu; [|done]. simpl in Htruthy.
    apply bool_decide_eq_true in Htruthy.
    destruct t as [|[] t]; simpl; try done; intros _; by eexists _, u.
  - by split.
Qed.

End Failures.

Lemma cascade_partial_failure_witness :
  @serve demo unnamed_server 0 [false; true]
    (mkRequest (DELETE_user "a@x.com") None) town
  = (mkResponse 500 (JMessage "Failed to delete user and issues"),
     with_users (remove_first (λ u, email u = "a@x.com") (users town)) town)
  ∧ issues (@serve demo unnamed_server 0 [false; true]
              (mkRequest (DELETE_user "a@x.com") None) town).2 = issues town
  ∧ S (length (users (@serve demo unnamed_server 0 [false; true]
                        (mkRequest (DELETE_user "a@x.com") None) town).2))
    = length (users town).
Proof.
  apply (@cascade_partial_failure demo unnamed_server 0 []
           (mkRequest (DELETE_user "a@x.com") None) "a@x.com" town).
  - reflexivity.
  - by left.
  - exists alice. split; [|reflexivity].
    apply list_elem_of_further, list_elem_of_here.
Defined.

Lemma stored_evidence_is_retrievable_witness :
  ∃ i stored,
    issues (@serve demo unnamed_server 1700000000000 []
              (mkRequest (POST_issues main_st (Some photo_a)) None)
              empty_world).2
    = (issues empty_world ++ [i])%list
    ∧ photo i = "/uploads/" +:+ stored
    ∧ uploads (@serve demo unnamed_server 1700000000000 []
                 (mkRequest (POST_issues main_st (Some photo_a)) None)
                 empty_world).2 !! stored
      = Some (content photo_a).
Proof.
  apply (@stored_evidence_is_retrievable demo 1700000000000 [] None main_st
           photo_a empty_world).
  vm_compute. reflexivity.
Defined.

(** ** Status transitions, composed *)

Lemma update_by_id_lookup id s l k i :
  l !! k = Some i →
  ∃ j, (update_by_id id (set_status s) l).2 !! k = Some j
       ∧ set_status (status j) i = j
       ∧ (_id i ≠ id → j = i).
Proof.
  revert k. induction l as [|x l IH]; intros k Hk; [done|]. simpl.
  case_decide as Hx.
  - destruct k as [|k]; simpl in *.
    + simplify_eq. eexists. split; [done|]. split; [done|]. by intros [].
    + exists i. split; [done|]. split; [by destruct i|done].
  - destruct (update_by_id id (set_status s) l) as [r l'] eqn:Hup.
    destruct k as [|k]; simpl in *.
    + simplify_eq. exists i. split; [done|]. split; [by destruct i|done].
    + by apply IH.
Qed.

Lemma update_by_id_length id f l :
  length (update_by_id id f l).2 = length l.
Proof.
  induction l as [|x l IH]; simpl; [done|].
  case_decide; simpl; [done|].
  destruct (update_by_id id f l) as [r l']. simpl in *. by rewrite IH.
Qed.

Lemma update_by_id_twice id s1 s2 l :
  update_by_id id (set_status s2) (update_by_id id (set_status s1) l).2
  = update_by_id id (set_status s2) l.
Proof.
  induction l as [|x l IH]; simpl; [done|].
  case_decide as Hx; simpl.
  - by rewrite decide_True by done.
  - destruct (update_by_id id (set_status s1) l) as [r l'] eqn:Hup. simpl in *.
    rewrite decide_False by done. by rewrite IH.
Qed.

Lemma update_by_id_status id s l j :
  NoDup (_id <$> l) → j ∈ (update_by_id id (set_status s) l).2 → _id j = id →
  status j = s.
Proof.
  induction l as [|x l IH]; csimpl; intros Hnd Hj Hid.
  { by apply not_elem_of_nil in Hj. }
  apply NoDup_cons in Hnd as [Hx Hnd]. case_decide as Hxid; simpl in Hj.
  - apply elem_of_cons in Hj as [->|Hj]; [done|].
    destruct Hx. rewrite Hxid, <- Hid. by apply list_elem_of_fmap_2.
  - destruct (update_by_id id (set_status s) l) as [r l'] eqn:Hup.
    simpl in *. apply elem_of_cons in Hj as [->|Hj]; [done|]. by apply IH.
Qed.

Lemma update_by_id_present id s l :
  (∃ i, i ∈ l ∧ _id i = id) →
  ∃ j, j ∈ (update_by_id id (set_status s) l).2 ∧ _id j = id ∧ status j = s.
Proof.
  induction l as [|x l IH]; intros (i & Hi & Hid).
  { by apply not_elem_of_nil in Hi. }
  simpl. case_decide as Hx.
  - exists (set_status s x). split; [by left|done].
  - destruct (update_by_id id (set_status s) l) as [r l'] eqn:Hup. simpl in *.
    apply elem_of_cons in Hi as [->|Hi]; [done|].
    destruct IH as (j & Hj & ? & ?); [by eauto|].
    exists j. split; [by right|done].
Qed.

Lemma patch_issue_status_run id s w :
  (run (patch_issue_status (Some id) s) [] w).2
  = with_issues (update_by_id id (set_status s) (issues w)).2 w.
Proof.
  unfold patch_issue_status, run, try_catch, bind, await,
    issue_findByIdAndUpdate. simpl.
  destruct (update_by_id id (set_status s) (issues w)) as [[i|] l]; done.
Qed.

Section Transitions.
Context `{!Externals}.

(** X10. A status transition touches nothing but one status: on either
    server and on every tape the users are as before and every issue keeps
    its position, its id and all its fields but [status]; an issue with
    another id is unchanged altogether. *)
Theorem transition_touches_status_only srv now t req id s w :
  route req = PATCH_issue_status id s →
  users (serve srv now t req w).2 = users w
  ∧ length (issues (serve srv now t req w).2) = length (issues w)
  ∧ ∀ k i, issues w !! k = Some i →
      ∃ j, issues (serve srv now t req w).2 !! k = Some j
           ∧ set_status (status j) i = j
           ∧ (_id i ≠ id → j = i).
Proof.
  intros Hr. split_and!.
  - destruct (serve_users srv now t req w) as [?|(e & He & _)]; [done|].
    congruence.
  - destruct (serve_effect srv now t req w)
      as [->|? ? ? He|id' s' He ->|? He]; try congruence.
    apply update_by_id_length.
  - intros k i Hk.
    destruct (serve_effect srv now t req w)
      as [->|? ? ? He|id' s' He ->|? He]; try congruence.
    + exists i. split; [done|]. split; [by destruct i|done].
    + rewrite Hr in He. injection He as <- <-. by apply update_by_id_lookup.
Qed.

(** X11. The last writer wins: on a store that works, two status
    transitions of the same id in a row leave the same answer and the same
    world as the second one alone; in particular repeating a transition
    changes nothing more. *)
Theorem last_transition_wins srv now1 now2 req1 req2 id s1 s2 w :
  route req1 = PATCH_issue_status id s1 → admitted srv req1 →
  route req2 = PATCH_issue_status id s2 → admitted srv req2 →
  serve srv now2 [] req2 (serve srv now1 [] req1 w).2
  = serve srv now2 [] req2 w.
Proof.
  intros Hr1 Ha1 Hr2 Ha2. unfold serve.
  rewrite (admitted_patch srv now1 req1 id s1),
    (admitted_patch srv now2 req2 id s2) by done.
  rewrite patch_issue_status_run.
  unfold patch_issue_status, run, try_catch, bind, await,
    issue_findByIdAndUpdate. simpl.
  rewrite update_by_id_twice.
  by destruct (update_by_id id (set_status s2) (issues w)) as [[i|] l].
Qed.

(** X12. Moderation moves an issue between the status views: after a
    transition of a stored issue to [s], on a store that works and whose ids
    are distinct, the view of status [s'] lists an entry with that id
    exactly when [s'] is [s]. *)
Theorem transition_moves_between_views srv now now' auth req id s s' w :
  route req = PATCH_issue_status id s → admitted srv req →
  distinct_ids w → (∃ i, i ∈ issues w ∧ _id i = id) →
  ∃ l, serve srv now' [] (mkRequest (GET_issues_status s') auth)
         (serve srv now [] req w).2
       = (json (JNamedIssues l), (serve srv now [] req w).2)
     ∧ ((∃ r, r ∈ l ∧ _id (doc r) = id) ↔ s' = s).
Proof.
  intros Hr Hadm Hnd Hex. eexists. split.
  { apply aggregated_serve; [done|]. right; by left. }
  unfold serve at 1 2. rewrite (admitted_patch _ _ _ id s) by done.
  rewrite patch_issue_status_run. simpl.
  split.
  - intros (r & Hin & Hid).
    apply list_elem_of_fmap in Hin as (j & -> & Hj). simpl in Hid.
    rewrite sort_desc_id_perm in Hj.
    apply list_elem_of_filter in Hj as [[_ Hs] Hj]. simpl in Hs.
    rewrite <- Hs. by eapply update_by_id_status.
  - intros ->.
    destruct (update_by_id_present id s (issues w) Hex) as (j & Hj & Hid & Hs).
    eexists (mkNamed j _). split; [|done].
    apply list_elem_of_fmap. exists j. split; [done|].
    rewrite sort_desc_id_perm. apply list_elem_of_filter. by split.
Qed.

End Transitions.

Lemma transition_touches_status_only_witness :
  users (@serve demo backend_server 0 []
           (mkRequest (PATCH_issue_status 1 "rejected") (Some "Bearer good"))
           town).2 = users town
  ∧ length (issues (@serve demo backend_server 0 []
           (mkRequest (PATCH_issue_status 1 "rejected") (Some "Bearer good"))
           town).2) = length (issues town)
  ∧ ∀ k i, issues town !! k = Some i →
      ∃ j, issues (@serve demo backend_server 0 []
           (mkRequest (PATCH_issue_status 1 "rejected") (Some "Bearer good"))
           town).2 !! k = Some j
           ∧ set_status (status j) i = j
           ∧ (_id i ≠ 1 → j = i).
Proof.
  apply (@transition_touches_status_only demo backend_server 0 []
           (mkRequest (PATCH_issue_status 1 "rejected") (Some "Bearer good"))
           1 "rejected" town).
  reflexivity.
Defined.

Lemma last_transition_wins_witness :
  @serve demo backend_server 1 []
    (mkRequest (PATCH_issue_status 1 "accepted") (Some "Bearer good"))
    (@serve demo backend_server 0 []
       (mkRequest (PATCH_issue_status 1 "rejected") (Some "Bearer good"))
       town).2
  = @serve demo backend_server 1 []
      (mkRequest (PATCH_issue_status 1 "accepted") (Some "Bearer good")) town.
Proof.
  apply (@last_transition_wins demo backend_server 0 1
           (mkRequest (PATCH_issue_status 1 "rejected") (Some "Bearer good"))
           (mkRequest (PATCH_issue_status 1 "accepted") (Some "Bearer good"))
           1 "rejected" "accepted" town).
  - reflexivity.
  - right; right. vm_compute. reflexivity.
  - reflexivity.
  - right; right. vm_compute. reflexivity.
Defined.

Lemma transition_moves_between_views_witness :
  ∃ l, @serve demo backend_server 1 []
         (mkRequest (GET_issues_status "accepted") None)
         (@serve demo backend_server 0 []
            (mkRequest (PATCH_issue_status 1 "accepted") (Some "Bearer good"))
            town).2
       = (json (JNamedIssues l),
          (@serve demo backend_server 0 []
             (mkRequest (PATCH_issue_status 1 "accepted") (Some "Bearer good"))
             town).2)
     ∧ ((∃ r, r ∈ l ∧ _id (doc r) = 1) ↔ "accepted" = "accepted").
Proof.
  apply (@transition_moves_between_views demo backend_server 0 1 None
           (mkRequest (PATCH_issue_status 1 "accepted") (Some "Bearer good"))
           1 "accepted" "accepted" town).
  - reflexivity.
  - right; right. vm_compute. reflexivity.
  - unfold distinct_ids. vm_compute. apply NoDup_cons. split.
    + intros Hin. apply list_elem_of_singleton in Hin. discriminate.
    + apply NoDup_singleton.
  - eexists. split; [apply list_elem_of_further, list_elem_of_here|].
    vm_compute. reflexivity.
Defined.

(** ** Deleting twice, and submitting then listing *)

Lemma sort_desc_id_snoc l i :
  Forall (λ x, _id x < _id i) l →
  sort_desc_id (l ++ [i]) = i :: sort_desc_id l.
Proof.
  induction 1 as [|x l Hx Hl IH]; [done|].
  unfold sort_desc_id in *. simpl. rewrite IH. simpl.
  rewrite decide_False by lia. done.
Qed.

Section Composition.
Context `{!Externals}.

(** X13. With unique emails a user can be deleted once: on a store that
    works, a second deletion of the same email is answered 404 and changes
    nothing. *)
Theorem second_delete_not_found srv now1 now2 req1 req2 e w :
  route req1 = DELETE_user e → admitted srv req1 →
  route req2 = DELETE_user e → admitted srv req2 →
  NoDup (email <$> users w) →
  serve srv now2 [] req2 (serve srv now1 [] req1 w).2
  = (mkResponse 404 (JMessage "User not found"), (serve srv now1 [] req1 w).2).
Proof.
  intros Hr1 Ha1 Hr2 Ha2 Hnd. unfold serve.
  rewrite (admitted_delete srv now1 req1 e), (admitted_delete srv now2 req2 e)
    by done.
  rewrite (delete_user_works e w).
  destruct (head (filter (λ u, email u = e) (users w))) as [u|] eqn:Hu; simpl.
  - rewrite delete_user_works. simpl.
    destruct (head (filter _ (remove_first _ _))) as [v|] eqn:Hv; [|done].
    apply head_Some_elem_of, list_elem_of_filter in Hv as [Hve Hv].
    by destruct (remove_first_email e (users w) Hnd v Hv).
  - rewrite delete_user_works. by rewrite Hu.
Qed.

Lemma submission_works srv now auth form photo w :
  code (serve srv now [] (mkRequest (POST_issues form photo) auth) w).1 = 201 →
  ∃ i, issues (serve srv now [] (mkRequest (POST_issues form photo) auth) w).2
         = (issues w ++ [i])%list
       ∧ users (serve srv now [] (mkRequest (POST_issues form photo) auth) w).2
         = users w
       ∧ status i = "pending" ∧ _id i = next_id w
       ∧ emailid i = form_emailid form ∧ location i = form_location form
       ∧ category i = form_category form ∧ issue i = form_issue form
       ∧ description i = form_description form.
Proof.
  unfold serve, app, Backend.app, Unnamed.app, run. simpl.
  destruct srv.
  - unfold Backend.upload_single, Backend.post_issues, try_catch, bind, sync,
      await, new_issue, issue_save.
    destruct photo as [p|]; simpl; [|done].
    destruct (cloudinary_upload p) as [f|]; simpl; [|done].
    destruct (truthy _); simpl; [|done]. intros _. eexists. by split_and!.
  - unfold Unnamed.upload_single, Unnamed.post_issues, try_catch, bind, sync,
      await, new_issue, issue_save.
    destruct photo as [p|]; simpl; [|done]. intros _. eexists. by split_and!.
Qed.

(** X14. A successful submission shows up at the top of the pending view:
    on a store that works and whose ids are below the supply, the view of
    status [pending] after the submission is the view before it with one
    entry in front, the new issue with the form's fields and the name that
    its email resolves to. *)
Theorem submission_tops_pending_view srv now now' auth auth' form photo w :
  supply_ahead w →
  code (serve srv now [] (mkRequest (POST_issues form photo) auth) w).1 = 201 →
  ∃ i,
    serve srv now' [] (mkRequest (GET_issues_status "pending") auth')
      (serve srv now [] (mkRequest (POST_issues form photo) auth) w).2
    = (json (JNamedIssues
         (mkNamed i (resolve_username (users w) i)
          :: view_of (GET_issues_status "pending") w)),
       (serve srv now [] (mkRequest (POST_issues form photo) auth) w).2)
    ∧ _id i = next_id w
    ∧ emailid i = form_emailid form ∧ location i = form_location form
    ∧ category i = form_category form ∧ issue i = form_issue form
    ∧ description i = form_description form.
Proof.
  intros Hsup H201.
  destruct (submission_works srv now auth form photo w H201)
    as (i & Hissues & Husers & Hstatus & Hid & Hfields).
  exists i. split; [|by destruct Hfields as (? & ? & ? & ? & ?)].
  rewrite aggregated_serve; [|done|right; by left].
  do 3 f_equal. simpl. rewrite Hissues, Husers, filter_app.
  rewrite (filter_cons_True _ i) by (by split). rewrite filter_nil.
  rewrite sort_desc_id_snoc; [done|].
  unfold supply_ahead in Hsup. rewrite Forall_forall in Hsup |- *.
  intros x Hx. apply list_elem_of_filter in Hx as [_ Hx].
  rewrite Hid. by apply Hsup.
Qed.

(** X15. The view of one submitter lists exactly the stored issues of that
    email: all of them when the [status] query parameter is missing or
    empty, and those of that status when it is a non-empty string. *)
Theorem user_view_content srv now auth e s w :
  ∃ l, serve srv now [] (mkRequest (GET_issues_user e s) auth) w
       = (json (JNamedIssues l), w)
     ∧ ∀ i, (∃ r, r ∈ l ∧ doc r = i)
            ↔ (i ∈ issues w ∧ emailid i = e
               ∧ ∀ s', s = Some s' → s' ≠ "" → status i = s').
Proof.
  eexists. split.
  { apply aggregated_serve; [done|]. right; by left. }
  intros i. split.
  - intros (r & Hin & <-).
    apply list_elem_of_fmap in Hin as (j & -> & Hj). simpl.
    rewrite sort_desc_id_perm in Hj.
    apply list_elem_of_filter in Hj as [[He Hs] Hj]. simpl in He, Hs.
    split_and!; [done|done|]. intros s' -> Hne. simpl in Hs.
    by rewrite bool_decide_eq_true_2 in Hs.
  - intros (Hin & He & Hs).
    exists (mkNamed i (resolve_username (users w) i)). split; [|done].
    apply list_elem_of_fmap. exists i. split; [done|].
    rewrite sort_desc_id_perm. apply list_elem_of_filter. split; [|done].
    split; [done|]. simpl. destruct s as [s'|]; simpl; [|done].
    case_bool_decide as Hne; simpl; [|done]. by apply Hs.
Qed.

End Composition.

Lemma second_delete_not_found_witness :
  @serve demo backend_server 1 []
    (mkRequest (DELETE_user "a@x.com") (Some "Bearer good"))
    (@serve demo backend_server 0 []
       (mkRequest (DELETE_user "a@x.com") (Some "Bearer good")) town).2
  = (mkResponse 404 (JMessage "User not found"),
     (@serve demo backend_server 0 []
        (mkRequest (DELETE_user "a@x.com") (Some "Bearer good")) town).2).
Proof.
  apply (@second_delete_not_found demo backend_server 0 1
           (mkRequest (DELETE_user "a@x.com") (Some "Bearer good"))
           (mkRequest (DELETE_user "a@x.com") (Some "Bearer good"))
           "a@x.com" town).
  - reflexivity.
  - right; right. vm_compute. reflexivity.
  - reflexivity.
  - right; right. vm_compute. reflexivity.
  - vm_compute. apply NoDup_cons. split.
    + intros Hin. apply list_elem_of_singleton in Hin. discriminate.
    + apply NoDup_singleton.
Defined.

Lemma submission_tops_pending_view_witness :
  ∃ i,
    @serve demo unnamed_server 1700000000001 []
      (mkRequest (GET_issues_status "pending") None)
      (@serve demo unnamed_server 1700000000000 []
         (mkRequest (POST_issues main_st (Some photo_b)) None) after_one).2
    = (json (JNamedIssues
         (mkNamed i (resolve_username (users after_one) i)
          :: view_of (GET_issues_status "pending") after_one)),
       (@serve demo unnamed_server 1700000000000 []
          (mkRequest (POST_issues main_st (Some photo_b)) None) after_one).2)
    ∧ _id i = next_id after_one
    ∧ emailid i = form_emailid main_st ∧ location i = form_location main_st
    ∧ category i = form_category main_st ∧ issue i = form_issue main_st
    ∧ description i = form_description main_st.
Proof.
  apply (@submission_tops_pending_view demo unnamed_server 1700000000000
           1700000000001 None None main_st (Some photo_b) after_one).
  - unfold supply_ahead. vm_compute. constructor; [reflexivity|constructor].
  - vm_compute. reflexivity.
Defined.

(** ** The session check and the bearer token *)

Lemma split_space_spaceless s : spaceless s → split_space s = [s].
Proof.
  induction s as [|c s IH]; [done|]. intros [Hc Hs]. simpl.
  rewrite decide_False by done. by rewrite IH.
Qed.

Lemma split_space_scheme scheme rest :
  spaceless scheme →
  split_space (scheme +:+ " " +:+ rest) = scheme :: split_space rest.
Proof.
  induction scheme as [|c s IH]; [done|]. intros [Hc Hs]. simpl.
  rewrite decide_False by done. by rewrite IH.
Qed.

(** X16. The handler of GET /api/admin/verify tests the header for
    truthiness and reads its second word: without a header, or with an
    empty one, it answers 401; with a header of one non-empty word 403; and
    with a scheme and a token 200 when [jwt.verify] accepts the token and
    403 when it throws; it never touches the world. *)
Theorem session_check_handler `{!Externals} r scheme token t w :
  spaceless scheme → spaceless token → token ≠ "" →
  run (Backend.get_admin_verify (mkRequest r None)) t w
  = (mkResponse 401 (JMessage "No token provided"), w)
  ∧ run (Backend.get_admin_verify (mkRequest r (Some ""))) t w
    = (mkResponse 401 (JMessage "No token provided"), w)
  ∧ (scheme ≠ "" →
     run (Backend.get_admin_verify (mkRequest r (Some scheme))) t w
     = (mkResponse 403 (JMessage "Invalid or expired token"), w))
  ∧ run (Backend.get_admin_verify
           (mkRequest r (Some (scheme +:+ " " +:+ token)))) t w
    = (if jwt_verify token then json JValid
       else mkResponse 403 (JMessage "Invalid or expired token"), w).
Proof.
  intros Hscheme Htoken Hne. split_and!; [done|done|..];
    unfold Backend.get_admin_verify, bearer; simpl.
  - intros Hs. rewrite bool_decide_eq_true_2 by done.
    by rewrite split_space_spaceless.
  - rewrite bool_decide_eq_true_2 by (by destruct scheme).
    rewrite split_space_scheme, split_space_spaceless by done. simpl.
    by destruct (jwt_verify token).
Qed.

Lemma session_check_handler_witness :
  run (@Backend.get_admin_verify demo (mkRequest GET_admin_verify None)) [] town
  = (mkResponse 401 (JMessage "No token provided"), town)
  ∧ run (@Backend.get_admin_verify demo
           (mkRequest GET_admin_verify (Some ""))) [] town
    = (mkResponse 401 (JMessage "No token provided"), town)
  ∧ ("Bearer" ≠ "" →
     run (@Backend.get_admin_verify demo
            (mkRequest GET_admin_verify (Some "Bearer"))) [] town
     = (mkResponse 403 (JMessage "Invalid or expired token"), town))
  ∧ run (@Backend.get_admin_verify demo
           (mkRequest GET_admin_verify (Some ("Bearer" +:+ " " +:+ "good"))))
        [] town
    = (if @jwt_verify demo "good" then json JValid
       else mkResponse 403 (JMessage "Invalid or expired token"), town).
Proof.
  apply (@session_check_handler demo GET_admin_verify "Bearer" "good" [] town).
  - vm_compute. repeat split; discriminate.
  - vm_compute. repeat split; discriminate.
  - discriminate.
Defined.

(** The three answers of the session check, on the gated server with the
    gate's own verdict: the header that verifies is answered 200. *)
Example session_check_answers :
  run (@Backend.get_admin_verify demo
         (mkRequest GET_admin_verify (Some "Bearer good"))) [] town
  = (json JValid, town)
  ∧ run (@Backend.get_admin_verify demo
           (mkRequest GET_admin_verify (Some "Bearer stale"))) [] town
    = (mkResponse 403 (JMessage "Invalid or expired token"), town)
  ∧ run (@Backend.get_admin_verify demo
           (mkRequest GET_admin_verify (Some ""))) [] town
    = (mkResponse 401 (JMessage "No token provided"), town).
Proof. vm_compute. done. Qed.

(** ** Accounts *)

Lemma head_filter_Some {A} (P : A → Prop) `{!∀ x, Decision (P x)} (l : list A) :
  (∃ x, x ∈ l ∧ P x) → is_Some (head (filter P l)).
Proof.
  intros (x & Hin & HP). destruct (head (filter P l)) eqn:Hhead; [by eexists|].
  rewrite head_filter_None in Hhead. by destruct (Hhead x).
Qed.

Lemma post_users_login_works (e p : Condition) w :
  run (post_users_login e p) [] w
  = (if castable e && castable p then
       match head (filter (λ u, holds e (email u) ∧ holds p (password u))
                     (users w)) with
       | Some _ => json (JMessage "Login successful")
       | None => mkResponse 401 (JError "Invalid credentials")
       end
     else mkResponse 500 (JError "Internal Server Error"), w).
Proof.
  unfold post_users_login, run, try_catch, bind, await,
    user_findOne_credentials.
  destruct (castable e && castable p); simpl; [|done].
  by destruct (head _).
Qed.

(** X17. A user login is answered by the filter Mongoose builds from the
    body's [email] and [password]: on a store that works, 200 when a stored
    user passes both conditions and 401 when the conditions cast and none
    does; 500, on every tape, when one cannot be cast. For two strings the
    conditions are equalities, so the login succeeds exactly for a stored
    email with its stored password; an object of query operators is a test,
    so a login can succeed without the stored password. The world is never
    changed. *)
Theorem login_iff_credentials (e p : Condition) t w :
  (run (post_users_login e p) t w).2 = w
  ∧ ((∃ u, u ∈ users w ∧ holds e (email u) ∧ holds p (password u)) →
     run (post_users_login e p) [] w
     = (json (JMessage "Login successful"), w))
  ∧ (castable e = true → castable p = true →
     (∀ u, u ∈ users w → ¬ (holds e (email u) ∧ holds p (password u))) →
     run (post_users_login e p) [] w
     = (mkResponse 401 (JError "Invalid credentials"), w))
  ∧ (castable e = false ∨ castable p = false →
     run (post_users_login e p) t w
     = (mkResponse 500 (JError "Internal Server Error"), w))
  ∧ (∀ e' p' : string,
       ((∃ u, u ∈ users w ∧ email u = e' ∧ password u = p') →
        run (post_users_login e' p') [] w
        = (json (JMessage "Login successful"), w))
       ∧ ((∀ u, u ∈ users w → ¬ (email u = e' ∧ password u = p')) →
          run (post_users_login e' p') [] w
          = (mkResponse 401 (JError "Invalid credentials"), w)))
  ∧ (∀ (e' x : string) u,
       u ∈ users w → email u = e' → password u ≠ x →
       run (post_users_login e' (Operator (λ v, bool_decide (v ≠ x)))) [] w
       = (json (JMessage "Login successful"), w)).
Proof.
  assert (∀ e p : Condition,
            (∃ u, u ∈ users w ∧ holds e (email u) ∧ holds p (password u)) →
            run (post_users_login e p) [] w
            = (json (JMessage "Login successful"), w)) as Hyes.
  { intros e0 p0 (u & Hin & He & Hp). rewrite post_users_login_works.
    assert (castable e0 && castable p0 = true) as ->
      by (by destruct e0, p0).
    destruct (head_filter_Some
                (λ u, holds e0 (email u) ∧ holds p0 (password u)) (users w))
      as [v ->]; [by eauto|done]. }
  assert (∀ e p : Condition,
            castable e = true → castable p = true →
            (∀ u, u ∈ users w → ¬ (holds e (email u) ∧ holds p (password u))) →
            run (post_users_login e p) [] w
            = (mkResponse 401 (JError "Invalid credentials"), w)) as Hno.
  { intros e0 p0 He Hp Hnone. rewrite post_users_login_works, He, Hp. simpl.
    destruct (head _) as [v|] eqn:Hv; [|done].
    apply head_Some_elem_of, list_elem_of_filter in Hv as [? ?].
    by destruct (Hnone v). }
  split_and!.
  - unfold post_users_login, run, try_catch, bind, await,
      user_findOne_credentials.
    destruct (castable e && castable p); [|done].
    destruct t as [|[] t]; simpl; try done; by destruct (head _).
  - apply Hyes.
  - apply Hno.
  - intros Hcast. unfold post_users_login, run, try_catch, bind.
    assert (castable e && castable p = false) as ->; [|done].
    destruct Hcast as [->| ->]; [done|by destruct (castable e)].
  - intros e' p'. split.
    + intros (u & ? & ? & ?). apply Hyes. by exists u.
    + intros Hnone. by apply Hno.
  - intros e' x u Hin He Hp. apply Hyes. exists u. split_and!; [done|done|].
    simpl. by apply bool_decide_eq_true_2.
Qed.

(** The password [{ "$ne": "x" }] logs Alice in. *)
Example login_without_the_password :
  run (post_users_login "a@x.com" (Operator (λ v, bool_decide (v ≠ "x")))) []
      town
  = (json (JMessage "Login successful"), town)
  ∧ run (post_users_login "a@x.com" "guess") [] town
    = (mkResponse 401 (JError "Invalid credentials"), town)
  ∧ run (post_users_login "a@x.com" "secret") [] town
    = (json (JMessage "Login successful"), town).
Proof. vm_compute. done. Qed.

(** X18. Signup then login: on a store that works, a signup is answered
    201 and appends the user, and a login with that user's email and
    password is then answered 200. *)
Theorem signup_then_login u w :
  run (post_users_signup u) [] w
  = (mkResponse 201 (JMessage "User created successfully"),
     with_users (users w ++ [u]) w)
  ∧ run (post_users_login (email u) (password u)) []
      (run (post_users_signup u) [] w).2
    = (json (JMessage "Login successful"), with_users (users w ++ [u]) w).
Proof.
  split; [done|]. rewrite post_users_login_works. cbn [castable andb].
  change (run (post_users_signup u) [] w).2
    with (with_users (users w ++ [u]) w).
  change (users (with_users (users w ++ [u]) w)) with (users w ++ [u])%list.
  destruct (head_filter_Some
              (λ v, holds (email u) (email v) ∧ holds (password u) (password v))
              (users w ++ [u])) as [v ->]; [|done].
  exists u. split; [|done]. apply elem_of_app. right. by left.
Qed.

Section AccountsAndIssues.
Context `{!Externals}.


(** X20. Signup gives the submitter's issues their name: after the signup
    of a user whose email no stored user has, on a store that works, every
    entry of an aggregated view whose [emailid] is that email carries the
    user's name; entries of other emails are named as before. *)
Theorem signup_names_issues srv now req u w :
  aggregated (route req) = true → admitted srv req →
  (∀ v, v ∈ users w → email v ≠ email u) →
  ∃ l, serve srv now [] req (run (post_users_signup u) [] w).2
       = (json (JNamedIssues l), (run (post_users_signup u) [] w).2)
     ∧ ∀ r, r ∈ l →
         (emailid (doc r) = email u → username r = name u)
         ∧ (emailid (doc r) ≠ email u →
            username r = resolve_username (users w) (doc r)).
Proof.
  intros Hagg Hadm Hfresh. rewrite aggregated_serve by done.
  eexists. split; [done|].
  intros r Hr. apply list_elem_of_fmap in Hr as (i & -> & _). simpl.
  unfold resolve_username. rewrite filter_app.
  assert (∀ e, e = emailid i → e = email u →
            filter (λ v, email v = emailid i) (users w) = []) as Hnil.
  { intros e -> He. apply head_None, head_filter_None.
    intros v Hv Hve. apply (Hfresh v Hv). congruence. }
  split.
  - intros He. rewrite (Hnil (emailid i)) by done. simpl.
    rewrite filter_cons_True by done. done.
  - intros He. rewrite (filter_cons_False _ u) by (by intros ?).
    rewrite filter_nil, app_nil_r. done.
Qed.

(** X21. The user search refuses a missing or empty name before any store
    call: it answers 400 "Name required" exactly when [name] is missing or
    empty, on every tape; a name that is no regular expression is answered
    500; otherwise, on a store that works, the users whose name the
    expression accepts are returned in stored order; the world is never
    changed. *)
Theorem search_needs_a_name pattern t w :
  (run (get_users_search pattern) t w).2 = w
  ∧ (code (run (get_users_search pattern) t w).1 = 400
     ↔ truthy pattern = false)
  ∧ (truthy pattern = true →
     match regexp_i (default "" pattern) with
     | None =>
         run (get_users_search pattern) t w
         = (mkResponse 500 (JMessage "Error searching users"), w)
     | Some test =>
         run (get_users_search pattern) [] w
         = (json (JUsers (filter (λ u, test (name u) = true) (users w))), w)
     end).
Proof.
  split_and!.
  - apply read_only_run, read_only_get_users_search.
  - unfold get_users_search, run, try_catch.
    destruct (truthy pattern); [|done].
    destruct (regexp_i _) as [test|]; [|done].
    unfold bind, await, user_find_name. by destruct t as [|[] t].
  - intros Htruthy. unfold get_users_search, run, try_catch.
    rewrite Htruthy. by destruct (regexp_i _).
Qed.

End AccountsAndIssues.


Lemma signup_names_issues_witness :
  ∃ l, @serve demo unnamed_server 0 []
         (mkRequest (GET_issues_status "pending") None)
         (run (post_users_signup alice) [] village).2
       = (json (JNamedIssues l), (run (post_users_signup alice) [] village).2)
     ∧ ∀ r, r ∈ l →
         (emailid (doc r) = email alice → username r = name alice)
         ∧ (emailid (doc r) ≠ email alice →
            username r = resolve_username (users village) (doc r)).
Proof.
  apply (@signup_names_issues demo unnamed_server 0
           (mkRequest (GET_issues_status "pending") None) alice village).
  - reflexivity.
  - by left.
  - intros v Hv. apply list_elem_of_singleton in Hv. subst v. discriminate.
Defined.

(** In the village the two pending issues of a@x.com are anonymous before
    Alice signs up and carry her name after. *)
Example signup_names_issues_in_village :
  (@serve demo unnamed_server 0 []
     (mkRequest (GET_issues_status "pending") None) village).1
  = json (JNamedIssues
      ((λ i, mkNamed i "Anonymous User") <$> reverse (issues after_two)))
  ∧ (@serve demo unnamed_server 0 []
       (mkRequest (GET_issues_status "pending") None)
       (run (post_users_signup alice) [] village).2).1
    = json (JNamedIssues
        ((λ i, mkNamed i "Alice") <$> reverse (issues after_two)))
  ∧ length (issues after_two) = 2%nat.
Proof. vm_compute. done. Qed.

Lemma ids_stay_distinct_witness :
  distinct_ids
    (@serve demo unnamed_server 1700000000000 [] (submit photo_b) after_one).2
  ∧ supply_ahead
      (@serve demo unnamed_server 1700000000000 [] (submit photo_b) after_one).2.
Proof.
  apply (@ids_stay_distinct demo unnamed_server 1700000000000 []
           (submit photo_b) after_one).
  - unfold distinct_ids. vm_compute. apply NoDup_singleton.
  - unfold supply_ahead. vm_compute. constructor; [reflexivity|constructor].
Defined.

(** ** The admin logins *)



(** ** The two pending listings *)

(** X25. GET /pending and the aggregated view of status [pending] hold the
    same issues: on a store that works, the documents of the view are a
    permutation of the raw listing, each with a [username] added. *)
Theorem pending_listings_agree `{!Externals} srv now now' auth auth' w :
  ∃ raw l,
    serve srv now [] (mkRequest GET_pending auth) w = (json (JIssues raw), w)
    ∧ serve srv now' [] (mkRequest (GET_issues_status "pending") auth') w
      = (json (JNamedIssues l), w)
    ∧ doc <$> l ≡ₚ raw
    ∧ ∀ r, r ∈ l → username r = resolve_username (users w) (doc r).
Proof.
  eexists _, _. split_and!.
  - destruct srv; apply get_pending_works.
  - apply aggregated_serve; [done|]. right; by left.
  - rewrite <- list_fmap_compose.
    assert (∀ k : list Issue,
              doc ∘ (λ i, mkNamed i (resolve_username (users w) i)) <$> k = k)
      as -> by (induction k as [|x k IH]; csimpl; [done|by rewrite IH]).
    rewrite sort_desc_id_perm. simpl.
    erewrite list_filter_iff; [done|]. intros i. unfold matches. simpl. tauto.
  - intros r Hr. by apply list_elem_of_fmap in Hr as (i & -> & _).
Qed.
